(** * Podcastr client ([frontend/src/App.tsx]): a shallow embedding

    The component [App] is embedded as
    - the JavaScript built-ins its handlers call ([trim], [parseInt],
      [encodeURIComponent], [split], [slice], [join], [filter]) over
      strings of UTF-16 code units, following ECMAScript;
    - a small effect language [Prog] in which the handlers are written the
      way the source writes them (state setters, [try]/[catch]/[finally],
      [await] on an HTTP request), with an interpreter [exec] that runs a
      handler up to its next [await];
    - an event machine [step] that dispatches the events of the rendered
      elements and the settling of pending requests, so that other events
      can happen while a request is on its way.

    What the embedding takes for granted:
    - a count is [NaN] or an exact integer: doubles are not modelled. The
      code rounds a numeral beyond 2^53 to a double and reads one out of
      the range of a double as [Infinity]; what [parseInt] reads from the
      numeral of a given integer is stated for magnitudes up to 2^53. The
      [score] of an article is a binary64 float the client never computes
      with;
    - a fulfilled search request carries a body of the type the source
      gives it ([SearchResponse]);
    - [localStorage] and [alert] do not throw;
    - the component renders again after every handler that ran (React may
      skip a render that would change nothing; the render only reads the
      storage, and no statement counts the reads of a later render).

    Of axios the embedding has what the handlers can observe: a request
    whose parameters cannot be serialised (a profile with an unpaired
    surrogate) is rejected before anything is sent; any other request goes
    out and settles later, fulfilled or rejected. *)

From Stdlib Require Import Floats.PrimFloat.
From Stdlib Require DecimalPos.
From stdpp Require Import base numbers list gmap strings.

Set Warnings "-register-all".
Open Scope Z_scope.

(** ** JavaScript values *)

Module JS.

(** A JavaScript string is a sequence of 16-bit code units. *)
Definition jschar := N.
Definition jsstring := list N.

(** String literals of the source: every character is ASCII, so each byte
    is one code unit. *)
Definition lit (s : string) : jsstring :=
  map Ascii.N_of_ascii (String.list_ascii_of_string s).
Arguments lit : simpl never.

(** The numbers the component computes with are [NaN] and integers
    ([parseInt] returns nothing else); an integer is kept exactly, the
    rounding of magnitudes above 2^53 to a double is not modelled. *)
Inductive number :=
| NaN
| Num (z : Z).

(** [a || b] on numbers: [NaN] and [0] are falsy. *)
Definition or_else (a b : number) : number :=
  match a with
  | NaN => b
  | Num 0 => b
  | Num _ => a
  end.

(** [Math.max(a, b)]: [NaN] if either argument is. *)
Definition Math_max (a b : number) : number :=
  match a, b with
  | Num x, Num y => Num (Z.max x y)
  | _, _ => NaN
  end.

(** WhiteSpace and LineTerminator code points of ECMAScript (all in the
    Basic Multilingual Plane, so one code unit each). *)
Definition isWhiteSpace (c : jschar) : bool :=
  ((9 <=? c) && (c <=? 13) ||
   (c =? 32) || (c =? 160) || (c =? 5760) ||
   (8192 <=? c) && (c <=? 8202) ||
   (c =? 8232) || (c =? 8233) || (c =? 8239) || (c =? 8287) ||
   (c =? 12288) || (c =? 65279))%N.

Fixpoint trimStart (s : jsstring) : jsstring :=
  match s with
  | c :: r => if isWhiteSpace c then trimStart r else s
  | [] => []
  end.

Definition trimEnd (s : jsstring) : jsstring := rev (trimStart (rev s)).

(** [s.trim()] *)
Definition trim (s : jsstring) : jsstring := trimEnd (trimStart s).

(** [!s] on a string: only the empty string is falsy. *)
Definition not_str (s : jsstring) : bool :=
  match s with [] => true | _ => false end.

(** *** [parseInt(s)] with no radix argument *)

Definition digit_value (radix : Z) (c : jschar) : option Z :=
  let v :=
    (if (48 <=? c) && (c <=? 57) then Some (c - 48)
     else if (97 <=? c) && (c <=? 122) then Some (c - 97 + 10)
     else if (65 <=? c) && (c <=? 90) then Some (c - 65 + 10)
     else None)%N in
  match v with
  | Some d => if Z.of_N d <? radix then Some (Z.of_N d) else None
  | None => None
  end.

(** The longest prefix of radix-[radix] digits, read as an integer;
    [None] while no digit has been read. *)
Fixpoint parse_digits (radix : Z) (s : jsstring) (acc : option Z) : option Z :=
  match s with
  | c :: r =>
      match digit_value radix c with
      | Some d => parse_digits radix r (Some (default 0 acc * radix + d))
      | None => acc
      end
  | [] => acc
  end.

Definition strip_sign (s : jsstring) : Z * jsstring :=
  match s with
  | 45%N :: r => (-1, r)
  | 43%N :: r => (1, r)
  | _ => (1, s)
  end.

Definition strip_hex_prefix (s : jsstring) : Z * jsstring :=
  match s with
  | 48%N :: 120%N :: r => (16, r)
  | 48%N :: 88%N :: r => (16, r)
  | _ => (10, s)
  end.

Definition parseInt (s : jsstring) : number :=
  let '(sign, s1) := strip_sign (trimStart s) in
  let '(radix, s2) := strip_hex_prefix s1 in
  match parse_digits radix s2 None with
  | Some n => Num (sign * n)
  | None => NaN
  end.

(** *** Thrown values *)

(** What a rejected axios request carries: no response at all, a timeout,
    or a response whose status is outside 2xx. *)
Inductive AxiosError :=
| ERR_NETWORK
| ECONNABORTED
| ERR_BAD_REQUEST (status : Z)
| ERR_BAD_RESPONSE (status : Z).

Inductive JsError :=
| URIError
| Axios (e : AxiosError).

Inductive completion (A : Type) :=
| Normal (a : A)
| Abrupt (e : JsError).
Arguments Normal {A} a.
Arguments Abrupt {A} e.

(** *** [encodeURIComponent(s)] *)

(** uriUnreserved: letters, decimal digits and the marks [-_.!~*'()]. *)
Definition uriUnreserved (c : jschar) : bool :=
  ((65 <=? c) && (c <=? 90) || (97 <=? c) && (c <=? 122) ||
   (48 <=? c) && (c <=? 57) ||
   (c =? 45) || (c =? 95) || (c =? 46) || (c =? 33) || (c =? 126) ||
   (c =? 42) || (c =? 39) || (c =? 40) || (c =? 41))%N.

Definition isLeadingSurrogate (c : jschar) : bool :=
  ((55296 <=? c) && (c <=? 56319))%N.
Definition isTrailingSurrogate (c : jschar) : bool :=
  ((56320 <=? c) && (c <=? 57343))%N.

Definition UTF16SurrogatePairToCodePoint (lead trail : jschar) : N :=
  ((lead - 55296) * 1024 + (trail - 56320) + 65536)%N.

(** The UTF-8 octets of a code point. *)
Definition utf8 (cp : N) : list N :=
  (if cp <? 128 then [cp]
   else if cp <? 2048 then
     [N.lor 192 (N.shiftr cp 6); N.lor 128 (N.land cp 63)]
   else if cp <? 65536 then
     [N.lor 224 (N.shiftr cp 12);
      N.lor 128 (N.land (N.shiftr cp 6) 63);
      N.lor 128 (N.land cp 63)]
   else
     [N.lor 240 (N.shiftr cp 18);
      N.lor 128 (N.land (N.shiftr cp 12) 63);
      N.lor 128 (N.land (N.shiftr cp 6) 63);
      N.lor 128 (N.land cp 63)])%N.

Definition hexDigit (d : N) : jschar :=
  (if d <? 10 then 48 + d else 55 + d)%N.

(** ["%XX"], upper-case hexadecimal. *)
Definition percent (octet : N) : jsstring :=
  [37%N; hexDigit (octet / 16)%N; hexDigit (octet mod 16)%N].

Definition escape (cp : N) : jsstring := concat (map percent (utf8 cp)).

Definition prepend (p : jsstring) (r : completion jsstring) : completion jsstring :=
  match r with
  | Normal s => Normal (p ++ s)
  | Abrupt e => Abrupt e
  end.

(** The abstract operation Encode with the unreserved set of
    [encodeURIComponent]: an unpaired surrogate throws a URIError. *)
Fixpoint encodeURIComponent (s : jsstring) : completion jsstring :=
  match s with
  | [] => Normal []
  | c :: r =>
      if uriUnreserved c then prepend [c] (encodeURIComponent r)
      else if isTrailingSurrogate c then Abrupt URIError
      else if isLeadingSurrogate c then
        match r with
        | d :: r' =>
            if isTrailingSurrogate d
            then prepend (escape (UTF16SurrogatePairToCodePoint c d))
                         (encodeURIComponent r')
            else Abrupt URIError
        | [] => Abrupt URIError
        end
      else prepend (escape c) (encodeURIComponent r)
  end.

(** *** Arrays and strings *)

(** [s.split(sep)] for a separator of one code unit. *)
Fixpoint split (sep : jschar) (s : jsstring) : list jsstring :=
  match s with
  | [] => [[]]
  | c :: r =>
      if (c =? sep)%N then [] :: split sep r
      else match split sep r with
           | w :: ws => (c :: w) :: ws
           | [] => [[c]]
           end
  end.

(** [a.join(sep)] *)
Fixpoint join (sep : jsstring) (a : list jsstring) : jsstring :=
  match a with
  | [] => []
  | w :: ws =>
      match ws with
      | [] => w
      | _ :: _ => w ++ sep ++ join sep ws
      end
  end.

(** [a.slice(start, end)] for integer arguments: a negative index counts
    from the end of the array. *)
Definition relative_index (len i : Z) : Z :=
  if i <? 0 then Z.max (len + i) 0 else Z.min i len.

Definition slice {A} (a : list A) (start end_ : Z) : list A :=
  let len := Z.of_nat (length a) in
  let k := relative_index len start in
  let final := relative_index len end_ in
  take (Z.to_nat (final - k)) (drop (Z.to_nat k) a).

(** [a.filter((x, i) => f x i)] *)
Fixpoint filter_from {A} (f : A -> nat -> bool) (i : nat) (a : list A) : list A :=
  match a with
  | [] => []
  | x :: r =>
      if f x i then x :: filter_from f (S i) r else filter_from f (S i) r
  end.

Definition filter {A} (f : A -> nat -> bool) (a : list A) : list A :=
  filter_from f 0 a.

End JS.

Import JS.

(** ** The data of the component *)

Record Article := {
  title : jsstring;
  description : jsstring;
  link : jsstring;
  published : jsstring;
  score : float;
  reasoning : jsstring
}.

Module SearchResponse.
Record t := {
  articles : list Article;
  llm_reasoning : jsstring
}.
End SearchResponse.

(** The state variables of [App], one field per [useState]. *)
Record AppState := {
  query : jsstring;
  maxSearchResults : number;
  displayResults : number;
  articles : list Article;
  loading : bool;
  saving : bool;
  error : jsstring;
  expandedCard : option nat;
  showProfileEditor : bool;
  profile : jsstring;
  showLog : bool;
  llmReasoning : jsstring
}.

(** The setters returned by [useState]: each replaces one state variable
    and keeps the others. *)
Definition setQuery_ (v : jsstring) (st : AppState) : AppState :=
  {| query := v; maxSearchResults := maxSearchResults st;
     displayResults := displayResults st; articles := articles st;
     loading := loading st; saving := saving st; error := error st;
     expandedCard := expandedCard st;
     showProfileEditor := showProfileEditor st; profile := profile st;
     showLog := showLog st; llmReasoning := llmReasoning st |}.
Definition setMaxSearchResults_ (v : number) (st : AppState) : AppState :=
  {| query := query st; maxSearchResults := v;
     displayResults := displayResults st; articles := articles st;
     loading := loading st; saving := saving st; error := error st;
     expandedCard := expandedCard st;
     showProfileEditor := showProfileEditor st; profile := profile st;
     showLog := showLog st; llmReasoning := llmReasoning st |}.
Definition setDisplayResults_ (v : number) (st : AppState) : AppState :=
  {| query := query st; maxSearchResults := maxSearchResults st;
     displayResults := v; articles := articles st; loading := loading st;
     saving := saving st; error := error st; expandedCard := expandedCard st;
     showProfileEditor := showProfileEditor st; profile := profile st;
     showLog := showLog st; llmReasoning := llmReasoning st |}.
Definition setArticles_ (v : list Article) (st : AppState) : AppState :=
  {| query := query st; maxSearchResults := maxSearchResults st;
     displayResults := displayResults st; articles := v;
     loading := loading st; saving := saving st; error := error st;
     expandedCard := expandedCard st;
     showProfileEditor := showProfileEditor st; profile := profile st;
     showLog := showLog st; llmReasoning := llmReasoning st |}.
Definition setLoading_ (v : bool) (st : AppState) : AppState :=
  {| query := query st; maxSearchResults := maxSearchResults st;
     displayResults := displayResults st; articles := articles st;
     loading := v; saving := saving st; error := error st;
     expandedCard := expandedCard st;
     showProfileEditor := showProfileEditor st; profile := profile st;
     showLog := showLog st; llmReasoning := llmReasoning st |}.
Definition setSaving_ (v : bool) (st : AppState) : AppState :=
  {| query := query st; maxSearchResults := maxSearchResults st;
     displayResults := displayResults st; articles := articles st;
     loading := loading st; saving := v; error := error st;
     expandedCard := expandedCard st;
     showProfileEditor := showProfileEditor st; profile := profile st;
     showLog := showLog st; llmReasoning := llmReasoning st |}.
Definition setError_ (v : jsstring) (st : AppState) : AppState :=
  {| query := query st; maxSearchResults := maxSearchResults st;
     displayResults := displayResults st; articles := articles st;
     loading := loading st; saving := saving st; error := v;
     expandedCard := expandedCard st;
     showProfileEditor := showProfileEditor st; profile := profile st;
     showLog := showLog st; llmReasoning := llmReasoning st |}.
Definition setExpandedCard_ (v : option nat) (st : AppState) : AppState :=
  {| query := query st; maxSearchResults := maxSearchResults st;
     displayResults := displayResults st; articles := articles st;
     loading := loading st; saving := saving st; error := error st;
     expandedCard := v; showProfileEditor := showProfileEditor st;
     profile := profile st; showLog := showLog st;
     llmReasoning := llmReasoning st |}.
Definition setShowProfileEditor_ (v : bool) (st : AppState) : AppState :=
  {| query := query st; maxSearchResults := maxSearchResults st;
     displayResults := displayResults st; articles := articles st;
     loading := loading st; saving := saving st; error := error st;
     expandedCard := expandedCard st; showProfileEditor := v;
     profile := profile st; showLog := showLog st;
     llmReasoning := llmReasoning st |}.
Definition setProfile_ (v : jsstring) (st : AppState) : AppState :=
  {| query := query st; maxSearchResults := maxSearchResults st;
     displayResults := displayResults st; articles := articles st;
     loading := loading st; saving := saving st; error := error st;
     expandedCard := expandedCard st;
     showProfileEditor := showProfileEditor st; profile := v;
     showLog := showLog st; llmReasoning := llmReasoning st |}.
Definition setShowLog_ (v : bool) (st : AppState) : AppState :=
  {| query := query st; maxSearchResults := maxSearchResults st;
     displayResults := displayResults st; articles := articles st;
     loading := loading st; saving := saving st; error := error st;
     expandedCard := expandedCard st;
     showProfileEditor := showProfileEditor st; profile := profile st;
     showLog := v; llmReasoning := llmReasoning st |}.
Definition setLlmReasoning_ (v : jsstring) (st : AppState) : AppState :=
  {| query := query st; maxSearchResults := maxSearchResults st;
     displayResults := displayResults st; articles := articles st;
     loading := loading st; saving := saving st; error := error st;
     expandedCard := expandedCard st;
     showProfileEditor := showProfileEditor st; profile := profile st;
     showLog := showLog st; llmReasoning := v |}.

(** ** Requests, replies and observable effects *)

(** A value of the [params] object handed to axios. *)
Inductive param :=
| PNum (n : number)
| PStr (s : jsstring).

(** A JSON value, for a response body the client gives no type to. *)
Inductive JsValue :=
| JNull
| JBool (b : bool)
| JNumber (n : float)
| JString (s : jsstring)
| JArray (items : list JsValue)
| JObject (fields : list (jsstring * JsValue)).

Record AxiosResponse (T : Type) := {
  data : T;
  status : Z
}.
Arguments data {T} _.
Arguments status {T} _.

(** How the promise of a request settles. *)
Inductive Reply (T : Type) :=
| Resolve (response : AxiosResponse T)
| Reject (e : AxiosError).
Arguments Resolve {T} response.
Arguments Reject {T} e.

(** What the component does to the world outside its state. *)
Inductive Effect :=
| HttpGet (url : jsstring) (params : list (jsstring * param))
| HttpPost (url : jsstring) (body : list Article)
| WindowAlert (msg : jsstring)
| ConsoleError (e : JsError)
| StorageGet (key : jsstring)
| StorageSet (key value : jsstring).

(** ** Handler programs *)

(** The statements a handler is made of. [AxiosGet] and [AxiosPost] are the
    two [await]s of the source: the program stops there and goes on with
    the reply. *)
Inductive Prog (A : Type) :=
| Ret (a : A)
| Throw (e : JsError)
| SetState (f : AppState -> AppState) (k : Prog A)
| Perform (eff : Effect) (k : Prog A)
| AxiosGet (url : jsstring) (params : list (jsstring * param))
    (k : Reply SearchResponse.t -> Prog A)
| AxiosPost (url : jsstring) (body : list Article)
    (k : Reply JsValue -> Prog A).
Arguments Ret {A} a.
Arguments Throw {A} e.
Arguments SetState {A} f k.
Arguments Perform {A} eff k.
Arguments AxiosGet {A} url params k.
Arguments AxiosPost {A} url body k.

Fixpoint bind {A B} (p : Prog A) (f : A -> Prog B) : Prog B :=
  match p with
  | Ret a => f a
  | Throw e => Throw e
  | SetState g k => SetState g (bind k f)
  | Perform eff k => Perform eff (bind k f)
  | AxiosGet url params k => AxiosGet url params (fun r => bind (k r) f)
  | AxiosPost url body k => AxiosPost url body (fun r => bind (k r) f)
  end.

#[export] Instance Prog_ret : MRet Prog := fun A a => Ret a.
#[export] Instance Prog_bind : MBind Prog := fun A B f p => bind p f.

(** [try { body } catch (err) { handler err }] *)
Fixpoint try_catch {A} (body : Prog A) (handler : JsError -> Prog A) : Prog A :=
  match body with
  | Ret a => Ret a
  | Throw e => handler e
  | SetState g k => SetState g (try_catch k handler)
  | Perform eff k => Perform eff (try_catch k handler)
  | AxiosGet url params k =>
      AxiosGet url params (fun r => try_catch (k r) handler)
  | AxiosPost url body' k =>
      AxiosPost url body' (fun r => try_catch (k r) handler)
  end.

(** [try { body } finally { fin }]: [fin] runs on both ways out, and the
    completion of [body] stands when [fin] completes normally. *)
Fixpoint try_finally {A} (body : Prog A) (fin : Prog unit) : Prog A :=
  match body with
  | Ret a => bind fin (fun _ => Ret a)
  | Throw e => bind fin (fun _ => Throw e)
  | SetState g k => SetState g (try_finally k fin)
  | Perform eff k => Perform eff (try_finally k fin)
  | AxiosGet url params k =>
      AxiosGet url params (fun r => try_finally (k r) fin)
  | AxiosPost url body' k =>
      AxiosPost url body' (fun r => try_finally (k r) fin)
  end.

Definition try_catch_finally {A} (body : Prog A) (handler : JsError -> Prog A)
    (fin : Prog unit) : Prog A :=
  try_finally (try_catch body handler) fin.

(** A built-in that may throw, used as an expression. *)
Definition eval {A} (c : completion A) : Prog A :=
  match c with
  | Normal a => Ret a
  | Abrupt e => Throw e
  end.

(** [await p]: the value of a fulfilled promise, the reason of a rejected
    one thrown. *)
Definition await {T} (r : Reply T) : Prog (AxiosResponse T) :=
  match r with
  | Resolve response => Ret response
  | Reject e => Throw (Axios e)
  end.

(** What axios does with [params] before it sends: every key and every
    value goes through [encodeURIComponent] on its way into the query
    string (a number as its decimal text, which is ASCII), so a string that
    holds an unpaired surrogate throws there. *)
Definition encode_param (v : param) : completion unit :=
  match v with
  | PNum _ => Normal tt
  | PStr s =>
      match encodeURIComponent s with
      | Normal _ => Normal tt
      | Abrupt e => Abrupt e
      end
  end.

Fixpoint serialize (params : list (jsstring * param)) : completion unit :=
  match params with
  | [] => Normal tt
  | (key, v) :: rest =>
      match encodeURIComponent key with
      | Normal _ =>
          match encode_param v with
          | Normal _ => serialize rest
          | Abrupt e => Abrupt e
          end
      | Abrupt e => Abrupt e
      end
  end.

(** [await axios.get(url, { params })]. A request whose parameters cannot
    be serialised is rejected with the error thrown, nothing is sent, and
    the rejection reaches the [await] before any other event: the
    expression throws. Otherwise the request goes out and the handler
    waits for the reply. *)
Definition axios_get (url : jsstring) (params : list (jsstring * param))
    : Prog (AxiosResponse SearchResponse.t) :=
  match serialize params with
  | Normal _ => AxiosGet url params await
  | Abrupt e => Throw e
  end.

Definition axios_post (url : jsstring) (body : list Article)
    : Prog (AxiosResponse JsValue) :=
  AxiosPost url body await.

Definition set (f : AppState -> AppState) : Prog unit := SetState f (Ret tt).
Definition perform (eff : Effect) : Prog unit := Perform eff (Ret tt).

Definition setQuery v := set (setQuery_ v).
Definition setMaxSearchResults v := set (setMaxSearchResults_ v).
Definition setDisplayResults v := set (setDisplayResults_ v).
Definition setArticles v := set (setArticles_ v).
Definition setLoading v := set (setLoading_ v).
Definition setSaving v := set (setSaving_ v).
Definition setError v := set (setError_ v).
Definition setExpandedCard v := set (setExpandedCard_ v).
Definition setShowProfileEditor v := set (setShowProfileEditor_ v).
Definition setProfile v := set (setProfile_ v).
Definition setShowLog v := set (setShowLog_ v).
Definition setLlmReasoning v := set (setLlmReasoning_ v).

Definition alert (msg : jsstring) := perform (WindowAlert msg).
Definition console_error (e : JsError) := perform (ConsoleError e).
Definition localStorage_setItem (key value : jsstring) :=
  perform (StorageSet key value).

(** ** The handlers of [App]

    A handler is a closure of the render that created it: it reads the
    state variables of that render ([c]) and writes through the setters. *)

Definition handleSearch (c : AppState) : Prog unit :=
  if not_str (trim (query c)) then Ret tt
  else
    setLoading true;;
    setError (lit "");;
    try_catch_finally
      (segment ← eval (encodeURIComponent (query c));
       response ← axios_get (lit "http://localhost:8000/search/" ++ segment)
                    [(lit "max_results", PNum (maxSearchResults c));
                     (lit "display_results", PNum (displayResults c));
                     (lit "profile", PStr (profile c))];
       setArticles (SearchResponse.articles (data response));;
       setLlmReasoning (SearchResponse.llm_reasoning (data response)))
      (λ err,
       setError (lit "Failed to fetch articles. Please try again.");;
       console_error err)
      (setLoading false).

Definition handleSave (c : AppState) : Prog unit :=
  setSaving true;;
  try_catch_finally
    (_ ← axios_post (lit "http://localhost:8000/save") (articles c);
     alert (lit "Articles saved successfully!"))
    (λ err,
     setError (lit "Failed to save articles. Please try again.");;
     console_error err)
    (setSaving false).

Definition truncateText (text : jsstring) (lines : Z) : jsstring :=
  let words := split 32%N text in
  let truncated := join (lit " ") (slice words 0 (lines * 10)) in
  truncated ++ (if lines * 10 <? Z.of_nat (length words) then lit "..." else lit "").

(** [localStorage.getItem(key) || '']: [null] and the empty string are
    falsy. *)
Definition str_or_else (a : option jsstring) (b : jsstring) : jsstring :=
  match a with
  | Some (c :: r) => c :: r
  | _ => b
  end.

(** The first render: the initial values of the [useState] calls. *)
Definition App_initial (localStorage : gmap jsstring jsstring) : AppState :=
  {| query := lit "";
     maxSearchResults := Num 50;
     displayResults := Num 10;
     articles := [];
     loading := false;
     saving := false;
     error := lit "";
     expandedCard := None;
     showProfileEditor := false;
     profile := str_or_else (localStorage !! lit "userProfile") (lit "");
     showLog := false;
     llmReasoning := lit "" |}.

(** What evaluating the body of [App] does besides building elements: the
    argument of [useState] for [profile] is an expression, evaluated by
    every render and used by the first. *)
Definition App_render_effects : list Effect := [StorageGet (lit "userProfile")].

(** The events of the rendered elements and of the network. *)
Inductive Event :=
| ClickEditProfile
| ChangeProfile (value : jsstring)
| ClickSaveProfile
| ChangeQuery (value : jsstring)
| KeyPressQuery (key : jsstring)
| ChangeMaxSearchResults (value : jsstring)
| ChangeDisplayResults (value : jsstring)
| ClickSearch
| ClickCard (index : nat)
| ClickDismiss (index : nat)
| ClickSave
| ClickLog
| SettleGet (i : nat) (r : Reply SearchResponse.t)
| SettlePost (i : nat) (r : Reply JsValue).

Definition jsstring_eqb (a b : jsstring) : bool := bool_decide (a = b).

(** [a === b] for [number | null] *)
Definition index_eqb (a : option nat) (b : nat) : bool :=
  match a with
  | Some i => Nat.eqb i b
  | None => false
  end.

(** The handler the rendered tree attaches to a user event: [None] when the
    element is not rendered or is disabled in the state [c]. *)
Definition handler (c : AppState) (ev : Event) : option (Prog unit) :=
  match ev with
  | ClickEditProfile =>
      Some (setShowProfileEditor (negb (showProfileEditor c)))
  | ChangeProfile value =>
      if showProfileEditor c then Some (setProfile value) else None
  | ClickSaveProfile =>
      if showProfileEditor c
      then Some (localStorage_setItem (lit "userProfile") (profile c);;
                 setShowProfileEditor false)
      else None
  | ChangeQuery value => Some (setQuery value)
  | KeyPressQuery key =>
      Some (if jsstring_eqb key (lit "Enter") then handleSearch c else Ret tt)
  | ChangeMaxSearchResults value =>
      Some (setMaxSearchResults
              (Math_max (Num 1) (or_else (parseInt value) (Num 1))))
  | ChangeDisplayResults value =>
      Some (setDisplayResults
              (Math_max (Num 1) (or_else (parseInt value) (Num 1))))
  | ClickSearch => if loading c then None else Some (handleSearch c)
  | ClickCard index =>
      if bool_decide (index < length (articles c))%nat
      then Some (setExpandedCard
                   (if index_eqb (expandedCard c) index then None else Some index))
      else None
  | ClickDismiss index =>
      if bool_decide (index < length (articles c))%nat
      then Some (setArticles
                   (JS.filter (λ _ i, negb (Nat.eqb i index)) (articles c)))
      else None
  | ClickSave =>
      if bool_decide (0 < length (articles c))%nat && negb (saving c)
      then Some (handleSave c)
      else None
  | ClickLog => Some (setShowLog (negb (showLog c)))
  | SettleGet _ _ | SettlePost _ _ => None
  end.

(** ** Running a handler *)

(** What a handler runs against: the current state variables and the
    browser's [localStorage]. *)
Record Env := {
  ui : AppState;
  localStorage : gmap jsstring jsstring
}.

(** The rest of a handler that waits for a reply. *)
Inductive Awaited :=
| OnGet (k : Reply SearchResponse.t -> Prog unit)
| OnPost (k : Reply JsValue -> Prog unit).

Inductive Outcome :=
| Finished (r : completion unit)
| Suspended (k : Awaited).

Definition with_ui (f : AppState -> AppState) (env : Env) : Env :=
  {| ui := f (ui env); localStorage := localStorage env |}.

Definition apply_effect (eff : Effect) (env : Env) : Env :=
  match eff with
  | StorageSet key value =>
      {| ui := ui env; localStorage := <[key := value]> (localStorage env) |}
  | _ => env
  end.

(** Runs [p] up to its end or its next [await]; the effects are listed in
    the order they happen. *)
Fixpoint exec (p : Prog unit) (env : Env) : Outcome * Env * list Effect :=
  match p with
  | Ret _ => (Finished (Normal tt), env, [])
  | Throw e => (Finished (Abrupt e), env, [])
  | SetState f k => exec k (with_ui f env)
  | Perform eff k =>
      let '(o, env', effs) := exec k (apply_effect eff env) in
      (o, env', eff :: effs)
  | AxiosGet url params k => (Suspended (OnGet k), env, [HttpGet url params])
  | AxiosPost url body k => (Suspended (OnPost k), env, [HttpPost url body])
  end.

(** A handler together with the reply to its request, when it makes one:
    the whole call, with nothing else happening while it waits. *)
Definition resume_get (k : Awaited) (r : Reply SearchResponse.t) : Prog unit :=
  match k with
  | OnGet k => k r
  | OnPost _ => Ret tt
  end.

Definition resume_post (k : Awaited) (r : Reply JsValue) : Prog unit :=
  match k with
  | OnPost k => k r
  | OnGet _ => Ret tt
  end.

Definition call_search (c : AppState) (r : Reply SearchResponse.t) (env : Env)
    : Outcome * Env * list Effect :=
  match exec (handleSearch c) env with
  | (Suspended k, env1, effs1) =>
      let '(o, env2, effs2) := exec (resume_get k r) env1 in
      (o, env2, effs1 ++ effs2)
  | done => done
  end.

Definition call_save (c : AppState) (r : Reply JsValue) (env : Env)
    : Outcome * Env * list Effect :=
  match exec (handleSave c) env with
  | (Suspended k, env1, effs1) =>
      let '(o, env2, effs2) := exec (resume_post k r) env1 in
      (o, env2, effs1 ++ effs2)
  | done => done
  end.

(** ** The event machine *)

Record World := {
  env : Env;
  pending : list Awaited;
  log : list Effect
}.

Definition mount (storage : gmap jsstring jsstring) : World :=
  {| env := {| ui := App_initial storage; localStorage := storage |};
     pending := [];
     log := App_render_effects |}.

(** Runs [p] in [w]; a handler that stops at an [await] joins the pending
    ones; the component renders again afterwards. *)
Definition run (p : Prog unit) (w : World) (waiting : list Awaited) : World :=
  let '(o, env', effs) := exec p (env w) in
  {| env := env';
     pending := match o with
                | Suspended k => waiting ++ [k]
                | Finished _ => waiting
                end;
     log := log w ++ effs ++ App_render_effects |}.

Definition step (w : World) (ev : Event) : World :=
  match ev with
  | SettleGet i r =>
      match pending w !! i with
      | Some (OnGet k) => run (k r) w (delete i (pending w))
      | _ => w
      end
  | SettlePost i r =>
      match pending w !! i with
      | Some (OnPost k) => run (k r) w (delete i (pending w))
      | _ => w
      end
  | _ =>
      match handler (ui (env w)) ev with
      | Some p => run p w (pending w)
      | None => w
      end
  end.

Definition steps (w : World) (evs : list Event) : World := foldl step w evs.

(** The requests among a list of effects, in order. *)
Definition is_request (eff : Effect) : bool :=
  match eff with
  | HttpGet _ _ | HttpPost _ _ => true
  | _ => false
  end.

Definition requests (effs : list Effect) : list Effect :=
  List.filter is_request effs.

(** ** What [App] renders

    The element tree of the [return] statement, as the data it shows: for
    every conditional ([a && <X/>]) whether the element is there, for every
    text what it reads. Layout and styling are left out; so are the two
    formatted texts of a card, [score.toFixed(1)] and
    [new Date(published).toLocaleDateString()], whose raw values are kept. *)

(** [a !== b] for [number | null] *)
Definition index_neqb (a : option nat) (b : nat) : bool := negb (index_eqb a b).

(** One [Card] of [articles.map((article, index) => ...)]. Both [Collapse]
    elements keep their children; [in] says which one is open. *)
Record CardView := {
  caption : nat;
  card_score : float;
  card_title : jsstring;
  details_in : bool;
  details : jsstring * jsstring;
  summary_in : bool;
  summary : jsstring;
  card_published : jsstring;
  card_link : jsstring
}.

Definition render_card (expanded : option nat) (index : nat) (article : Article)
    : CardView :=
  {| caption := index + 1;
     card_score := score article;
     card_title := title article;
     details_in := index_eqb expanded index;
     details := (description article, lit "Reasoning: " ++ reasoning article);
     summary_in := index_neqb expanded index;
     summary := truncateText (description article) 5;
     card_published := published article;
     card_link := link article |}.

(** The button under the cards. *)
Record SaveButton := {
  save_label : jsstring;
  save_disabled : bool
}.

Record View := {
  profile_editor : option jsstring;
  query_field : jsstring;
  max_field : number;
  max_field_max : number;
  display_field : number;
  display_field_max : number;
  search_label : jsstring;
  search_disabled : bool;
  error_text : option jsstring;
  spinner : bool;
  results : option (list CardView * SaveButton);
  log_panel : option jsstring
}.

(** [s && <X/>] for a string [s]: the element is there unless [s] is empty. *)
Definition and_then {A} (s : jsstring) (x : A) : option A :=
  if not_str s then None else Some x.

Definition render (st : AppState) : View :=
  {| profile_editor :=
       if showProfileEditor st then Some (profile st) else None;
     query_field := query st;
     max_field := maxSearchResults st;
     max_field_max := Num 300;
     display_field := displayResults st;
     display_field_max := maxSearchResults st;
     search_label := if loading st then lit "Searching..." else lit "Search";
     search_disabled := loading st;
     error_text := and_then (error st) (error st);
     spinner := loading st;
     results :=
       if bool_decide (0 < length (articles st))%nat
       then Some (imap (render_card (expandedCard st)) (articles st),
                  {| save_label := if saving st then lit "Saving Articles..."
                                   else lit "Save Articles";
                     save_disabled := saving st |})
       else None;
     log_panel :=
       if showLog st then and_then (llmReasoning st) (llmReasoning st)
       else None |}.

(** ** Vocabulary of the statements *)

(** A string is blank when every code unit is white space (the empty
    string included). *)
Definition blank (s : jsstring) : Prop := Forall (λ c, isWhiteSpace c = true) s.

(** A number that is an integer and at least 1. *)
Definition positive_integer (n : number) : Prop := ∃ z, n = Num z ∧ 1 ≤ z.

(** [s.isWellFormed()]: no surrogate code unit stands alone. *)
Fixpoint isWellFormed (s : jsstring) : bool :=
  match s with
  | [] => true
  | c :: r =>
      if isTrailingSurrogate c then false
      else if isLeadingSurrogate c then
        match r with
        | d :: r' => isTrailingSurrogate d && isWellFormed r'
        | [] => false
        end
      else isWellFormed r
  end.

(** The code units an encoded component is made of: unreserved ones, and
    [%] with upper-case hexadecimal digits. None of them is [/], [?],
    [#], [&] or [=]. *)
Definition isHexDigit (c : jschar) : bool :=
  ((48 <=? c) && (c <=? 57) || (65 <=? c) && (c <=? 70))%N.

Definition component_char (c : jschar) : bool :=
  uriUnreserved c || (c =? 37)%N || isHexDigit c.

(** Reading a percent-encoded string back: an unreserved code unit stands
    for itself, [%] with two upper-case hexadecimal digits for the octet
    they spell; a string of any other shape is not read. *)
Definition hex_value (c : jschar) : option N :=
  (if (48 <=? c) && (c <=? 57) then Some (c - 48)
   else if (65 <=? c) && (c <=? 70) then Some (c - 55)
   else None)%N.

Fixpoint percent_decode (t : jsstring) : option (list N) :=
  match t with
  | [] => Some []
  | c :: r =>
      if (c =? 37)%N then
        match r with
        | hi :: lo :: r' =>
            match hex_value hi, hex_value lo, percent_decode r' with
            | Some a, Some b, Some octets => Some ((16 * a + b)%N :: octets)
            | _, _, _ => None
            end
        | _ => None
        end
      else if uriUnreserved c then
        match percent_decode r with
        | Some octets => Some (c :: octets)
        | None => None
        end
      else None
  end.

(** The code points of a string: a leading surrogate followed by a
    trailing one is one code point. *)
Fixpoint code_points (s : jsstring) : list N :=
  match s with
  | [] => []
  | c :: r =>
      if isLeadingSurrogate c then
        match r with
        | d :: r' =>
            if isTrailingSurrogate d
            then UTF16SurrogatePairToCodePoint c d :: code_points r'
            else c :: code_points r
        | [] => [c]
        end
      else c :: code_points r
  end.

(** The path a URL parser gives [http://localhost:8000/search/] followed
    by one segment that holds no [/], [?] or [#] (URL Standard, path
    state): a segment that is a single dot is left out, a double dot is
    left out and takes [search] with it. A dot may also be written [%2e],
    in either case of the letter. *)
Definition single_dot_segment (segment : jsstring) : bool :=
  bool_decide (segment ∈ [lit "."; lit "%2e"; lit "%2E"]).

Definition double_dot_segment (segment : jsstring) : bool :=
  bool_decide (segment ∈ [lit ".."; lit ".%2e"; lit ".%2E"; lit "%2e.";
                          lit "%2E."; lit "%2e%2e"; lit "%2e%2E";
                          lit "%2E%2e"; lit "%2E%2E"]).

Definition request_path (segment : jsstring) : jsstring :=
  if double_dot_segment segment then lit "/"
  else if single_dot_segment segment then lit "/search/"
  else lit "/search/" ++ segment.

(** What the rest of [handleSearch] does to the state variables once its
    request has settled, and what it logs. *)
Definition search_settled (r : Reply SearchResponse.t) (st : AppState) : AppState :=
  match r with
  | Resolve response =>
      setLoading_ false
        (setLlmReasoning_ (SearchResponse.llm_reasoning (data response))
           (setArticles_ (SearchResponse.articles (data response)) st))
  | Reject _ =>
      setLoading_ false
        (setError_ (lit "Failed to fetch articles. Please try again.") st)
  end.

Definition search_settled_log (r : Reply SearchResponse.t) : list Effect :=
  match r with
  | Resolve _ => []
  | Reject e => [ConsoleError (Axios e)]
  end.

(** The same for [handleSave]. *)
Definition save_settled (r : Reply JsValue) (st : AppState) : AppState :=
  match r with
  | Resolve _ => setSaving_ false st
  | Reject _ =>
      setSaving_ false
        (setError_ (lit "Failed to save articles. Please try again.") st)
  end.

Definition save_settled_log (r : Reply JsValue) : list Effect :=
  match r with
  | Resolve _ => [WindowAlert (lit "Articles saved successfully!")]
  | Reject e => [ConsoleError (Axios e)]
  end.

(** A waiting handler is one of the two the component has. *)
Definition awaited_ok (k : Awaited) : Prop :=
  match k with
  | OnGet k =>
      ∀ r e, exec (k r) e =
             (Finished (Normal tt), with_ui (search_settled r) e, search_settled_log r)
  | OnPost k =>
      ∀ r e, exec (k r) e =
             (Finished (Normal tt), with_ui (save_settled r) e, save_settled_log r)
  end.

(** The events that are not a user's: a request settles. *)
Definition network_event (ev : Event) : bool :=
  match ev with
  | SettleGet _ _ | SettlePost _ _ => true
  | _ => false
  end.

(** The effects of one event: what [step] adds to the log. *)
Definition emitted (w : World) (ev : Event) : list Effect :=
  drop (length (log w)) (log (step w ev)).

(** An effect that is about the profile [p] uses it as it is: a search
    request carries it as the parameter [profile], the storage is written
    under the key [userProfile] with [p] as the value, and read under the
    same key. *)
Definition profile_effect (p : jsstring) (eff : Effect) : Prop :=
  match eff with
  | HttpGet _ params => params !! 2%nat = Some (lit "profile", PStr p)
  | StorageSet key value => key = lit "userProfile" ∧ value = p
  | StorageGet key => key = lit "userProfile"
  | _ => True
  end.

(** The storage entries a list of effects writes, in order. *)
Definition writes (effs : list Effect) : list (jsstring * jsstring) :=
  omap (λ eff, match eff with
               | StorageSet key value => Some (key, value)
               | _ => None
               end) effs.

(** A search request whose two counts are the numbers [m] and [d]. *)
Definition search_counts (eff : Effect) (m d : number) : Prop :=
  ∃ url p, eff = HttpGet url [(lit "max_results", PNum m);
                              (lit "display_results", PNum d);
                              (lit "profile", p)].

(** The counts of the requests in a log are integers from 1 up. *)
Definition counts_effect (eff : Effect) : Prop :=
  match eff with
  | HttpGet _ _ =>
      ∃ m d, search_counts eff m d ∧ positive_integer m ∧ positive_integer d
  | _ => True
  end.

(** What one program run must satisfy to keep the machine's invariant. *)
Definition run_ok (r : Outcome * Env * list Effect) : Prop :=
  positive_integer (maxSearchResults (ui r.1.2)) ∧
  positive_integer (displayResults (ui r.1.2)) ∧
  Forall counts_effect r.2 ∧
  match r.1.1 with
  | Suspended k => awaited_ok k
  | Finished _ => True
  end.

(** What holds of every world the machine reaches. *)
Record reachable_inv (w : World) : Prop := {
  inv_pending : Forall awaited_ok (pending w);
  inv_max : positive_integer (maxSearchResults (ui (env w)));
  inv_display : positive_integer (displayResults (ui (env w)));
  inv_log : Forall counts_effect (log w)
}.

(** *** The machine in closed form

    What an event does to the state variables and to the kinds of the
    pending requests, written as plain functions; [step_closed_form] below
    shows that the handlers, run by [exec], do exactly this. *)

Definition is_get (k : Awaited) : bool :=
  match k with
  | OnGet _ => true
  | OnPost _ => false
  end.

(** The state variables after the part of [handleSearch] that runs at
    once. *)
(** Whether the query and the profile of a state can both be encoded: the
    query for the path, the profile for the query string. *)
Definition encodable (st : AppState) : bool :=
  isWellFormed (query st) && isWellFormed (profile st).

Definition search_started (st : AppState) : AppState :=
  if not_str (trim (query st)) then st
  else if encodable st then setError_ (lit "") (setLoading_ true st)
  else
    setLoading_ false
      (setError_ (lit "Failed to fetch articles. Please try again.")
         (setError_ (lit "") (setLoading_ true st))).

(** Whether [handleSearch] makes its request. *)
Definition search_sends (st : AppState) : bool :=
  negb (not_str (trim (query st))) && encodable st.

Definition clamp (value : jsstring) : number :=
  Math_max (Num 1) (or_else (parseInt value) (Num 1)).

Definition next_ui (st : AppState) (kinds : list bool) (ev : Event) : AppState :=
  match ev with
  | ClickEditProfile => setShowProfileEditor_ (negb (showProfileEditor st)) st
  | ChangeProfile value =>
      if showProfileEditor st then setProfile_ value st else st
  | ClickSaveProfile =>
      if showProfileEditor st then setShowProfileEditor_ false st else st
  | ChangeQuery value => setQuery_ value st
  | KeyPressQuery key =>
      if jsstring_eqb key (lit "Enter") then search_started st else st
  | ChangeMaxSearchResults value => setMaxSearchResults_ (clamp value) st
  | ChangeDisplayResults value => setDisplayResults_ (clamp value) st
  | ClickSearch => if loading st then st else search_started st
  | ClickCard index =>
      if bool_decide (index < length (articles st))%nat
      then setExpandedCard_
             (if index_eqb (expandedCard st) index then None else Some index) st
      else st
  | ClickDismiss index =>
      if bool_decide (index < length (articles st))%nat
      then setArticles_ (delete index (articles st)) st
      else st
  | ClickSave =>
      if bool_decide (0 < length (articles st))%nat && negb (saving st)
      then setSaving_ true st
      else st
  | ClickLog => setShowLog_ (negb (showLog st)) st
  | SettleGet i r =>
      match kinds !! i with
      | Some true => search_settled r st
      | _ => st
      end
  | SettlePost i r =>
      match kinds !! i with
      | Some false => save_settled r st
      | _ => st
      end
  end.

Definition next_kinds (st : AppState) (kinds : list bool) (ev : Event) : list bool :=
  match ev with
  | KeyPressQuery key =>
      if jsstring_eqb key (lit "Enter") && search_sends st
      then kinds ++ [true] else kinds
  | ClickSearch =>
      if negb (loading st) && search_sends st then kinds ++ [true] else kinds
  | ClickSave =>
      if bool_decide (0 < length (articles st))%nat && negb (saving st)
      then kinds ++ [false]
      else kinds
  | SettleGet i _ =>
      match kinds !! i with
      | Some true => delete i kinds
      | _ => kinds
      end
  | SettlePost i _ =>
      match kinds !! i with
      | Some false => delete i kinds
      | _ => kinds
      end
  | _ => kinds
  end.

(** The storage after an event: only the Save Profile button writes. *)
Definition next_storage (st : AppState) (storage : gmap jsstring jsstring)
    (ev : Event) : gmap jsstring jsstring :=
  match ev with
  | ClickSaveProfile =>
      if showProfileEditor st
      then <[lit "userProfile" := profile st]> storage
      else storage
  | _ => storage
  end.

(** The part of a world the closed form speaks about. *)
Definition observe (w : World) : AppState * list bool * gmap jsstring jsstring :=
  (ui (env w), is_get <$> pending w, localStorage (env w)).

Definition next (o : AppState * list bool * gmap jsstring jsstring) (ev : Event)
    : AppState * list bool * gmap jsstring jsstring :=
  let '(st, kinds, storage) := o in
  (next_ui st kinds ev, next_kinds st kinds ev, next_storage st storage ev).

(** How many pending requests are searches ([true]) or saves ([false]). *)
Definition count_kind (b : bool) (kinds : list bool) : nat :=
  length (List.filter (Bool.eqb b) kinds).

Definition gets_pending (w : World) : nat := count_kind true (is_get <$> pending w).
Definition posts_pending (w : World) : nat := count_kind false (is_get <$> pending w).

(** The spinner and the Save button against the requests on their way. *)
Definition in_flight_inv (o : AppState * list bool * gmap jsstring jsstring) : Prop :=
  let '(st, kinds, _) := o in
  count_kind false kinds = (if saving st then 1 else 0)%nat ∧
  (loading st = true → 1 ≤ count_kind true kinds)%nat.

(** The three texts the [error] state variable can hold. *)
Definition error_texts : list jsstring :=
  [lit "";
   lit "Failed to fetch articles. Please try again.";
   lit "Failed to save articles. Please try again."].


(** The integers up to which every integer is a double: there the exact
    integers of the embedding are the numbers of the code. *)
Definition exact_double (z : Z) : Prop := Z.abs z ≤ 2 ^ 53.

(** The decimal numeral of an integer, as a user types it and as [String]
    prints a count. *)
Fixpoint uint_chars (d : Decimal.uint) : jsstring :=
  match d with
  | Decimal.Nil => []
  | Decimal.D0 d => 48%N :: uint_chars d
  | Decimal.D1 d => 49%N :: uint_chars d
  | Decimal.D2 d => 50%N :: uint_chars d
  | Decimal.D3 d => 51%N :: uint_chars d
  | Decimal.D4 d => 52%N :: uint_chars d
  | Decimal.D5 d => 53%N :: uint_chars d
  | Decimal.D6 d => 54%N :: uint_chars d
  | Decimal.D7 d => 55%N :: uint_chars d
  | Decimal.D8 d => 56%N :: uint_chars d
  | Decimal.D9 d => 57%N :: uint_chars d
  end.

Definition decimal (z : Z) : jsstring :=
  match z with
  | Z0 => lit "0"
  | Zpos p => uint_chars (Pos.to_uint p)
  | Zneg p => lit "-" ++ uint_chars (Pos.to_uint p)
  end.


(** Reading UTF-8 back: how many octets a sequence has, told by its first
    octet, and the code point a sequence stands for. *)
Definition utf8_size (head : N) : nat :=
  if (head <? 128)%N then 1%nat else if (head <? 224)%N then 2%nat
  else if (head <? 240)%N then 3%nat else 4%nat.

Definition utf8_value (octets : list N) : N :=
  match octets with
  | [a] => a
  | [a; b] => (a - 192) * 64 + (b - 128)
  | [a; b; c] => (a - 224) * 4096 + (b - 128) * 64 + (c - 128)
  | [a; b; c; d] =>
      (a - 240) * 262144 + (b - 128) * 4096 + (c - 128) * 64 + (d - 128)
  | _ => 0
  end%N.


(** The request of a search in the state [st], when its query can be
    encoded. *)
Definition search_request (st : AppState) : list Effect :=
  match encodeURIComponent (query st) with
  | Normal segment =>
      [HttpGet (lit "http://localhost:8000/search/" ++ segment)
         [(lit "max_results", PNum (maxSearchResults st));
          (lit "display_results", PNum (displayResults st));
          (lit "profile", PStr (profile st))]]
  | Abrupt _ => []
  end.

(** The requests an event makes, in closed form. *)
Definition next_requests (st : AppState) (ev : Event) : list Effect :=
  match ev with
  | KeyPressQuery key =>
      if jsstring_eqb key (lit "Enter") && search_sends st
      then search_request st else []
  | ClickSearch =>
      if negb (loading st) && search_sends st then search_request st else []
  | ClickSave =>
      if bool_decide (0 < length (articles st))%nat && negb (saving st)
      then [HttpPost (lit "http://localhost:8000/save") (articles st)]
      else []
  | _ => []
  end.

(** The events that can make a request. *)
Definition may_request (ev : Event) : bool :=
  match ev with
  | ClickSearch | ClickSave => true
  | KeyPressQuery key => jsstring_eqb key (lit "Enter")
  | _ => false
  end.

(** The bodies of the save requests among a list of effects. *)
Definition posted (effs : list Effect) : list (list Article) :=
  omap (λ eff, match eff with HttpPost _ body => Some body | _ => None end) effs.

(** The article lists that fulfilled searches brought, in a list of
    events. *)
Definition delivered (evs : list Event) : list (list Article) :=
  omap (λ ev, match ev with
              | SettleGet _ (Resolve response) =>
                  Some (SearchResponse.articles (data response))
              | _ => None
              end) evs.


(** * Facts about the built-ins *)

Section Trim.

Implicit Types s : jsstring.

Lemma trimStart_nil s : trimStart s = [] ↔ blank s.
Proof.
  unfold blank. induction s as [|c r IH]; simpl.
  - split; [constructor | done].
  - destruct (isWhiteSpace c) eqn:Hc.
    + rewrite IH. split; [by constructor | by inversion 1].
    + split; [done | inversion 1; congruence].
Qed.

(** What [trimStart] leaves starts with a code unit that is not white
    space. *)
Lemma trimStart_head s c r : trimStart s = c :: r → isWhiteSpace c = false.
Proof.
  induction s as [|d s IH]; simpl; [done |].
  destruct (isWhiteSpace d) eqn:Hd; [done |]. by intros [= <- _].
Qed.

Lemma blank_rev s : blank (rev s) ↔ blank s.
Proof.
  unfold blank. split; intros H; apply List.Forall_rev in H; [|done].
  by rewrite rev_involutive in H.
Qed.

Lemma trim_nil s : trim s = [] ↔ blank s.
Proof.
  unfold trim, trimEnd. split.
  - intros H. apply (f_equal (@rev _)) in H. rewrite rev_involutive in H.
    simpl in H. apply (proj1 (trimStart_nil _)), (proj1 (blank_rev _)) in H.
    destruct (trimStart s) as [|c r] eqn:Hs; [by apply trimStart_nil |].
    apply trimStart_head in Hs. apply Forall_cons in H as [Hc _]. congruence.
  - intros H. apply trimStart_nil in H. by rewrite H.
Qed.

Lemma not_str_trim s : not_str (trim s) = true ↔ blank s.
Proof.
  rewrite <- trim_nil. destruct (trim s); simpl; [done |].
  split; discriminate.
Qed.

Lemma not_str_trim_false s : not_str (trim s) = false ↔ ¬ blank s.
Proof.
  rewrite <- not_str_trim. by destruct (not_str (trim s)).
Qed.

End Trim.

Section Numbers.

(** The expression both count fields store:
    [Math.max(1, parseInt(value) || 1)]. *)
Lemma clamped_positive_integer (value : jsstring) :
  positive_integer (Math_max (Num 1) (or_else (parseInt value) (Num 1))).
Proof.
  destruct (parseInt value) as [|[|p|p]]; simpl;
    eexists; (split; [reflexivity | lia]).
Qed.

(** A decimal numeral reads as its value: the field can hold any integer
    from 1 up. *)
Lemma clamped_of_parsed (value : jsstring) (z : Z) :
  parseInt value = Num z → 1 ≤ z →
  Math_max (Num 1) (or_else (parseInt value) (Num 1)) = Num z.
Proof.
  intros -> Hz. destruct z as [|p|p]; try lia. simpl. f_equal. lia.
Qed.

End Numbers.

Section SplitJoin.

Implicit Types (s w : jsstring) (ws : list jsstring) (sep : jschar).

Lemma split_cons sep s : ∃ w ws, split sep s = w :: ws.
Proof.
  destruct s as [|c r]; simpl; [by eauto |].
  destruct (c =? sep)%N; [by eauto |].
  destruct (split sep r); by eauto.
Qed.

(** Splitting at a separator and joining with it gives the string back,
    whatever the string. *)
Lemma join_split sep s : join [sep] (split sep s) = s.
Proof.
  induction s as [|c r IH]; simpl; [done |].
  destruct (N.eqb_spec c sep) as [-> | Hne].
  - destruct (split_cons sep r) as (w & ws & Hr). rewrite Hr in *.
    by rewrite <- IH.
  - destruct (split sep r) as [|w ws] eqn:Hr.
    + destruct (split_cons sep r) as (? & ? & ?). congruence.
    + destruct ws; by rewrite <- IH.
Qed.

(** One word more than there are separators. *)
Lemma length_split sep s :
  length (split sep s) = S (length (List.filter (N.eqb sep) s)).
Proof.
  induction s as [|c r IH]; simpl; [done |].
  rewrite (N.eqb_sym sep c). destruct (c =? sep)%N; simpl; [by rewrite IH |].
  destruct (split sep r); simpl in *; lia.
Qed.

(** No word holds a separator. *)
Lemma split_words sep s : Forall (λ w, sep ∉ w) (split sep s).
Proof.
  induction s as [|c r IH]; simpl.
  - repeat constructor. by intros ?%elem_of_nil.
  - destruct (N.eqb_spec c sep) as [-> | Hne].
    + constructor; [by intros ?%elem_of_nil | done].
    + destruct (split sep r) as [|w ws]; [repeat constructor|].
      * intros [->|?%elem_of_nil]%elem_of_cons; done.
      * apply Forall_cons in IH as [Hw Hws]. constructor; [|done].
        intros [->|?]%elem_of_cons; done.
Qed.

Lemma split_word sep w : sep ∉ w → split sep w = [w].
Proof.
  induction w as [|c w IHw]; simpl; intros Hw; [done |].
  destruct (N.eqb_spec c sep) as [-> | Hne].
  - destruct Hw. by left.
  - rewrite IHw; [done |]. intros ?. apply Hw. by right.
Qed.

Lemma split_app_sep sep w s :
  sep ∉ w → split sep (w ++ sep :: s) = w :: split sep s.
Proof.
  induction w as [|c w IHw]; simpl; intros Hw.
  - by rewrite N.eqb_refl.
  - destruct (N.eqb_spec c sep) as [-> | Hne].
    + destruct Hw. by left.
    + rewrite IHw; [done |]. intros ?. apply Hw. by right.
Qed.

(** The words of [s] are the only way to write [s] as separator-free
    pieces with one separator between neighbours. *)
Lemma split_join sep ws :
  ws ≠ [] → Forall (λ w, sep ∉ w) ws → split sep (join [sep] ws) = ws.
Proof.
  induction ws as [|w ws IH]; [done |]. intros _ H.
  apply Forall_cons in H as [Hw Hws].
  destruct ws as [|w' ws'].
  - by apply split_word.
  - change (join [sep] (w :: w' :: ws'))
      with (w ++ sep :: join [sep] (w' :: ws')).
    rewrite split_app_sep by done. by rewrite IH.
Qed.

(** With a start of 0 and an end that is not negative, [slice] keeps the
    first [end] elements (all of them when there are fewer). *)
Lemma slice_0 {A} (a : list A) (n : Z) :
  0 ≤ n → slice a 0 n = take (Z.to_nat n) a.
Proof.
  intros Hn. unfold slice, relative_index. simpl.
  destruct (Z.ltb_spec n 0); [lia |].
  rewrite (Z.min_l 0) by lia. rewrite drop_0, Z.sub_0_r.
  destruct (Z.le_ge_cases n (Z.of_nat (length a))).
  - by rewrite Z.min_l by lia.
  - rewrite Z.min_r by lia. rewrite Nat2Z.id.
    by rewrite !take_ge by lia.
Qed.

Lemma filter_from_above {A} (a : list A) (i k : nat) :
  (i < k)%nat → filter_from (λ _ j, negb (Nat.eqb j i)) k a = a.
Proof.
  revert k. induction a as [|x r IH]; intros k Hk; simpl; [done |].
  destruct (Nat.eqb_spec k i); [lia |]. simpl. f_equal. apply IH. lia.
Qed.

(** Filtering out one index deletes the element at that index. *)
Lemma filter_from_delete {A} (a : list A) (i index : nat) :
  filter_from (λ _ j, negb (Nat.eqb j (i + index))) i a = delete index a.
Proof.
  revert i index. induction a as [|x r IH]; intros i index; [done |].
  cbn [filter_from]. destruct index as [|index].
  - rewrite Nat.add_0_r, Nat.eqb_refl. cbn [negb delete list_delete].
    apply filter_from_above. lia.
  - destruct (Nat.eqb_spec i (i + S index)); [lia |].
    cbn [negb delete list_delete]. f_equal.
    replace (i + S index)%nat with (S i + index)%nat by lia. apply IH.
Qed.

Lemma filter_delete {A} (a : list A) (index : nat) :
  JS.filter (λ _ j, negb (Nat.eqb j index)) a = delete index a.
Proof. apply (filter_from_delete a 0 index). Qed.

End SplitJoin.

Section Encode.

Implicit Types (s t : jsstring) (c : jschar).

Lemma unreserved_not_surrogate c :
  uriUnreserved c = true →
  isTrailingSurrogate c = false ∧ isLeadingSurrogate c = false.
Proof.
  unfold uriUnreserved, isTrailingSurrogate, isLeadingSurrogate.
  intros H. split; apply andb_false_iff; left; apply N.leb_gt;
    repeat (apply orb_prop in H as [H|H]);
    try (apply andb_prop in H as [_ H]; apply N.leb_le in H; lia);
    apply N.eqb_eq in H; lia.
Qed.

Lemma prepend_Normal p (r : completion jsstring) :
  (∃ t, prepend p r = Normal t) ↔ (∃ t, r = Normal t).
Proof. destruct r; simpl; split; intros [t Ht]; by eauto. Qed.

(** The encoding is defined exactly on the well-formed strings. *)
Lemma encode_defined_pair s :
  ((∃ t, encodeURIComponent s = Normal t) ↔ isWellFormed s = true) ∧
  ∀ c, (∃ t, encodeURIComponent (c :: s) = Normal t) ↔
       isWellFormed (c :: s) = true.
Proof.
  assert (Hyes : ∀ t, (∃ t', Normal t = Normal t') ↔ true = true)
    by (intros t; split; [done | by eauto]).
  assert (Hno : (∃ t', @Abrupt jsstring URIError = Normal t') ↔ false = true)
    by (split; [by intros [? ?] | done]).
  induction s as [|d r [IH1 IH2]].
  - split; [apply Hyes |]. intros c. simpl.
    destruct (uriUnreserved c) eqn:Hu.
    + destruct (unreserved_not_surrogate c Hu) as [-> ->]. apply Hyes.
    + destruct (isTrailingSurrogate c); [apply Hno |].
      destruct (isLeadingSurrogate c); [apply Hno | apply Hyes].
  - split; [apply IH2 |]. intros c. cbn [encodeURIComponent isWellFormed].
    destruct (uriUnreserved c) eqn:Hu.
    + destruct (unreserved_not_surrogate c Hu) as [-> ->].
      rewrite prepend_Normal. apply IH2.
    + destruct (isTrailingSurrogate c); [apply Hno |].
      destruct (isLeadingSurrogate c).
      * destruct (isTrailingSurrogate d); [|apply Hno].
        rewrite prepend_Normal. apply IH1.
      * rewrite prepend_Normal. apply IH2.
Qed.

Lemma encode_defined s :
  (∃ t, encodeURIComponent s = Normal t) ↔ isWellFormed s = true.
Proof. apply encode_defined_pair. Qed.

(** The only error of the encoding is a URIError. *)
Lemma encode_error_pair s :
  (∀ e, encodeURIComponent s = Abrupt e → e = URIError) ∧
  ∀ c e, encodeURIComponent (c :: s) = Abrupt e → e = URIError.
Proof.
  assert (Hp : ∀ p (r : completion jsstring) e,
    (∀ e, r = Abrupt e → e = URIError) → prepend p r = Abrupt e → e = URIError).
  { intros p [t|e'] e Hr; simpl; [done |]. intros [= <-]. by apply Hr. }
  induction s as [|d r [IH1 IH2]].
  - split; [done |]. intros c e. simpl.
    repeat case_match; simpl; congruence.
  - split; [apply IH2 |]. intros c e. cbn [encodeURIComponent].
    destruct (uriUnreserved c); [apply Hp, IH2 |].
    destruct (isTrailingSurrogate c); [congruence |].
    destruct (isLeadingSurrogate c); [|apply Hp, IH2].
    destruct (isTrailingSurrogate d); [apply Hp, IH1 | congruence].
Qed.

Lemma encode_error s e : encodeURIComponent s = Abrupt e → e = URIError.
Proof. apply encode_error_pair. Qed.

Lemma lor_lt_256 (a b : N) : (a < 256 → b < 256 → N.lor a b < 256)%N.
Proof.
  intros Ha Hb. destruct (N.eq_dec (N.lor a b) 0%N) as [-> | Hne]; [lia |].
  change 256%N with (2 ^ 8)%N. apply N.log2_lt_pow2; [lia |].
  rewrite N.log2_lor.
  assert (Hlog : ∀ x, (x < 256 → N.log2 x < 8)%N).
  { intros x Hx. destruct (N.eq_dec x 0%N) as [-> | ?]; [done |].
    apply N.log2_lt_pow2; [lia | done]. }
  apply N.max_lub_lt; by apply Hlog.
Qed.

Lemma continuation_octet (x : N) : (N.lor 128 (N.land x 63) < 256)%N.
Proof.
  apply lor_lt_256; [lia |]. pose proof (N.land_le_r x 63). lia.
Qed.

(** Every octet of the UTF-8 form of a code point is below 256. *)
Lemma utf8_octets (cp : N) :
  (cp < 2097152)%N → Forall (λ o, o < 256)%N (utf8 cp).
Proof.
  intros Hcp. unfold utf8.
  assert (Hsh : ∀ k m, (cp < 2 ^ k * m → N.shiftr cp k < m)%N).
  { intros k m H. rewrite N.shiftr_div_pow2.
    apply N.Div0.div_lt_upper_bound. lia. }
  repeat case_match; repeat constructor;
    try apply continuation_octet;
    try (apply lor_lt_256; [lia |]);
    repeat match goal with H : (_ <? _)%N = true |- _ => apply N.ltb_lt in H end.
  - lia.
  - apply N.lt_trans with 32%N; [by apply (Hsh 6 32)%N | lia].
  - apply N.lt_trans with 16%N; [by apply (Hsh 12 16)%N | lia].
  - apply N.lt_trans with 8%N; [by apply (Hsh 18 8)%N | lia].
Qed.

Lemma hexDigit_hex (d : N) : (d < 16)%N → isHexDigit (hexDigit d) = true.
Proof.
  intros Hd. unfold hexDigit, isHexDigit.
  destruct (N.ltb_spec d 10); apply orb_true_iff; [left | right];
    apply andb_true_iff; split; apply N.leb_le; lia.
Qed.

Lemma percent_chars (o : N) :
  (o < 256)%N → Forall (λ c, component_char c = true) (percent o).
Proof.
  intros Ho. unfold percent, component_char.
  assert (o / 16 < 16)%N by (apply N.Div0.div_lt_upper_bound; lia).
  assert (o mod 16 < 16)%N by (apply N.mod_lt; lia).
  repeat constructor; rewrite ?hexDigit_hex by done;
    by rewrite ?orb_true_r.
Qed.

Lemma escape_chars (cp : N) :
  (cp < 2097152)%N → Forall (λ c, component_char c = true) (escape cp).
Proof.
  intros Hcp. unfold escape. apply Forall_concat, Forall_map.
  eapply Forall_impl; [by apply utf8_octets |]. apply percent_chars.
Qed.

Lemma pair_code_point (lead trail : jschar) :
  isLeadingSurrogate lead = true → isTrailingSurrogate trail = true →
  (UTF16SurrogatePairToCodePoint lead trail < 2097152)%N.
Proof.
  unfold isLeadingSurrogate, isTrailingSurrogate, UTF16SurrogatePairToCodePoint.
  intros [H1 H2]%andb_prop [H3 H4]%andb_prop.
  apply N.leb_le in H1, H2, H3, H4. lia.
Qed.

(** An encoded component is made of unreserved code units, [%] and
    upper-case hexadecimal digits only: it holds no [/], [?], [#], [&] or
    [=], so it adds no separator to the URL. *)
Lemma encode_chars_pair s :
  (Forall (λ c, c < 65536)%N s →
   ∀ t, encodeURIComponent s = Normal t →
        Forall (λ c, component_char c = true) t) ∧
  ∀ c, Forall (λ c, c < 65536)%N (c :: s) →
       ∀ t, encodeURIComponent (c :: s) = Normal t →
            Forall (λ c, component_char c = true) t.
Proof.
  assert (Hp : ∀ p (r : completion jsstring) t,
    Forall (λ c, component_char c = true) p →
    (∀ t, r = Normal t → Forall (λ c, component_char c = true) t) →
    prepend p r = Normal t → Forall (λ c, component_char c = true) t).
  { intros p [u|e] t Hpre Hr; simpl; [|done]. intros [= <-].
    apply Forall_app. split; [done | by apply Hr]. }
  assert (Hc : ∀ c, uriUnreserved c = true →
    Forall (λ c, component_char c = true) [c]).
  { intros c Hc. repeat constructor. unfold component_char. by rewrite Hc. }
  induction s as [|d r [IH1 IH2]].
  - split; [intros _ t [= <-]; constructor |].
    intros c [Hlt _]%Forall_cons t. simpl.
    destruct (uriUnreserved c) eqn:Hu.
    { intros [= <-]. by apply Hc. }
    destruct (isTrailingSurrogate c); [done |].
    destruct (isLeadingSurrogate c); [done |].
    simpl. intros [= <-]. rewrite app_nil_r. apply escape_chars. lia.
  - split; [apply IH2 |].
    intros c [Hlt Hrest]%Forall_cons t. cbn [encodeURIComponent].
    destruct (uriUnreserved c) eqn:Hu.
    { apply Hp; [by apply Hc | by apply IH2]. }
    destruct (isTrailingSurrogate c); [done |].
    destruct (isLeadingSurrogate c) eqn:Hlead.
    + destruct (isTrailingSurrogate d) eqn:Htrail; [|done].
      apply Hp; [by apply escape_chars, pair_code_point |].
      apply IH1. by apply Forall_cons in Hrest as [_ ?].
    + apply Hp; [apply escape_chars; lia | by apply IH2].
Qed.

Lemma encode_chars s t :
  Forall (λ c, c < 65536)%N s → encodeURIComponent s = Normal t →
  Forall (λ c, component_char c = true) t.
Proof. intros Hs. by apply (proj1 (encode_chars_pair s)). Qed.

(** An escape starts with [%], which is not an unreserved code unit. *)
Lemma escape_head cp : ∃ rest, escape cp = 37%N :: rest.
Proof.
  unfold escape, utf8. repeat case_match; cbn; by eexists.
Qed.

(** The three ways [encodeURIComponent] reads the start of a string. *)
Lemma encode_cons c s t :
  encodeURIComponent (c :: s) = Normal t →
  (uriUnreserved c = true ∧
   ∃ t1, t = c :: t1 ∧ encodeURIComponent s = Normal t1) ∨
  (uriUnreserved c = false ∧ isTrailingSurrogate c = false ∧
   isLeadingSurrogate c = false ∧
   ∃ t1, t = escape c ++ t1 ∧ encodeURIComponent s = Normal t1) ∨
  (uriUnreserved c = false ∧ isLeadingSurrogate c = true ∧
   ∃ d s' t1, s = d :: s' ∧ isTrailingSurrogate d = true ∧
              t = escape (UTF16SurrogatePairToCodePoint c d) ++ t1 ∧
              encodeURIComponent s' = Normal t1).
Proof.
  assert (Hp : ∀ p (r : completion jsstring),
    prepend p r = Normal t → ∃ t1, t = p ++ t1 ∧ r = Normal t1).
  { intros p [t1|e]; cbn; [|done]. intros [= <-]. by eexists. }
  cbn [encodeURIComponent].
  destruct (uriUnreserved c) eqn:Hu.
  { intros (t1 & -> & ?)%Hp. left. split; [done |]. by exists t1. }
  destruct (isTrailingSurrogate c) eqn:Htr; [done |].
  destruct (isLeadingSurrogate c) eqn:Hle.
  - destruct s as [|d s']; [done |].
    destruct (isTrailingSurrogate d) eqn:Hd; [|done].
    intros (t1 & -> & ?)%Hp. right; right. repeat split; try done.
    by exists d, s', t1.
  - intros (t1 & -> & ?)%Hp. right; left. repeat split; try done.
    by exists t1.
Qed.

Lemma encode_nonempty c s t : encodeURIComponent (c :: s) = Normal t → t ≠ [].
Proof.
  intros [(_ & ? & -> & _) | [(_ & _ & _ & ? & -> & _)
    | (_ & _ & ? & ? & ? & _ & _ & -> & _)]]%encode_cons; [done | |];
    match goal with
    | |- escape ?cp ++ _ ≠ [] => by destruct (escape_head cp) as [? ->]
    end.
Qed.


(** An OR keeps the top bit of an octet. *)
Lemma lor_ge_128 (a b : N) : (128 ≤ a → 128 ≤ N.lor a b)%N.
Proof.
  intros Ha. change 128%N with (2 ^ 7)%N.
  apply N.log2_le_pow2.
  - destruct (N.eq_dec (N.lor a b) 0%N) as [H0 | ?]; [|lia].
    apply N.lor_eq_0_iff in H0. lia.
  - rewrite N.log2_lor. apply N.le_trans with (N.log2 a); [|apply N.le_max_l].
    apply N.log2_le_pow2; [lia | done].
Qed.

(** The first octet of an escape: the code point itself below 128, an
    octet with the top bit set otherwise. *)
Lemma escape_first (cp : N) :
  ∃ o rest, escape cp = percent o ++ rest ∧
            ((cp < 128 ∧ o = cp) ∨ (128 ≤ cp ∧ 128 ≤ o))%N.
Proof.
  unfold escape, utf8.
  destruct (N.ltb_spec cp 128); [|destruct (N.ltb_spec cp 2048);
    [|destruct (N.ltb_spec cp 65536)]]; cbn [map concat];
    eexists _, _; (split; [reflexivity |]); [left; by split | right..];
    (split; [lia | apply lor_ge_128; lia]).
Qed.

(** No escape is [%2E] or [%2e]: the dot is unreserved and the hexadecimal
    digits are upper-case. *)
Lemma escape_not_dot (cp : N) (x : jschar) rest :
  escape cp = 37%N :: 50%N :: x :: rest → (x = 69 ∨ x = 101)%N → cp = 46%N.
Proof.
  destruct (escape_first cp) as (o & rest' & -> & Ho).
  unfold percent, hexDigit. cbn [app]. intros [= Hhi Hlo _] Hx.
  assert (o mod 16 < 16)%N by (apply N.mod_lt; lia).
  assert (Hdiv : (o / 16 = 2)%N) by (destruct (N.ltb_spec (o / 16) 10); lia).
  assert (Hmod : (o mod 16 = 14)%N)
    by (destruct (N.ltb_spec (o mod 16) 10); lia).
  pose proof (N.div_mod o 16) as Ho16. rewrite Hdiv, Hmod in Ho16.
  destruct Ho as [[_ <-] | [_ Ho]]; lia.
Qed.

Lemma pair_above_units (c d : jschar) :
  isLeadingSurrogate c = true → isTrailingSurrogate d = true →
  (65536 ≤ UTF16SurrogatePairToCodePoint c d)%N.
Proof. unfold UTF16SurrogatePairToCodePoint. lia. Qed.

(** What [encodeURIComponent] gives starts with a dot only for a string
    that starts with one, and is empty only for the empty string. *)
Lemma encode_dot_head s t :
  encodeURIComponent s = Normal (46%N :: t) →
  ∃ s', s = 46%N :: s' ∧ encodeURIComponent s' = Normal t.
Proof.
  destruct s as [|c s]; [done |].
  intros [(_ & t1 & [= <- <-] & ?) | [(_ & _ & _ & t1 & Heq & _)
    | (_ & _ & d & s' & t1 & _ & _ & Heq & _)]]%encode_cons.
  - by exists s.
  - destruct (escape_head c) as [rest Hrest]. by rewrite Hrest in Heq.
  - destruct (escape_head (UTF16SurrogatePairToCodePoint c d)) as [rest Hrest].
    by rewrite Hrest in Heq.
Qed.

Lemma encode_nil s : encodeURIComponent s = Normal [] → s = [].
Proof.
  destruct s as [|c s]; [done |]. intros H. by apply encode_nonempty in H.
Qed.

Lemma encode_not_dot_escape s (x : jschar) t :
  encodeURIComponent s = Normal (37%N :: 50%N :: x :: t) → (x = 69 ∨ x = 101)%N →
  False.
Proof.
  destruct s as [|c s]; [done |].
  intros [(Hu & t1 & [= <- _] & _) | [(Hu & _ & _ & t1 & Heq & _)
    | (Hu & Hl & d & s' & t1 & _ & Hd & Heq & _)]]%encode_cons Hx.
  - done.
  - destruct (escape_head c) as [r1 Hr1]. pose proof Hr1 as Hr1'.
    rewrite Hr1 in Heq. injection Heq as Heq.
    destruct (escape_first c) as (o & r2 & Hr2 & _).
    rewrite Hr2 in Hr1. unfold percent in Hr1. cbn [app] in Hr1.
    injection Hr1 as <-. cbn [app] in Heq. injection Heq as Hhi Hlo _.
    assert (c = 46%N) as ->; [|done].
    apply (escape_not_dot c x r2); [|done].
    rewrite Hr2. unfold percent. cbn [app]. by rewrite <- Hhi, <- Hlo.
  - destruct (escape_first (UTF16SurrogatePairToCodePoint c d))
      as (o & r2 & Hr2 & _).
    pose proof (pair_above_units c d Hl Hd) as Habove.
    assert (UTF16SurrogatePairToCodePoint c d = 46%N); [|lia].
    apply (escape_not_dot _ x (drop 3 (escape (UTF16SurrogatePairToCodePoint c d)))); [|done].
    rewrite Hr2 in Heq |- *. unfold percent in Heq |- *. cbn [app] in Heq |- *.
    injection Heq as Hhi Hlo _. cbn [drop]. by rewrite <- Hhi, <- Hlo.
Qed.

(** The encoding of a string is a dot segment only when the string is [.]
    or [..]: the path of the request is then the one the code wrote. *)
Lemma encode_request_path s segment :
  encodeURIComponent s = Normal segment → s ≠ lit "." → s ≠ lit ".." →
  request_path segment = lit "/search/" ++ segment.
Proof.
  intros Hs Hdot Hdots.
  assert (Hesc : ∀ (x : jschar) t, segment = 37%N :: 50%N :: x :: t →
                                  (x = 69 ∨ x = 101)%N → False).
  { intros x t -> Hx. exact (encode_not_dot_escape _ _ _ Hs Hx). }
  assert (Hdot_esc : ∀ (x : jschar) t, segment = 46%N :: 37%N :: 50%N :: x :: t →
                                      (x = 69 ∨ x = 101)%N → False).
  { intros x t -> Hx. apply encode_dot_head in Hs as (s' & _ & Hs').
    exact (encode_not_dot_escape _ _ _ Hs' Hx). }
  assert (H1 : segment ≠ lit ".").
  { intros ->. apply encode_dot_head in Hs as (s' & -> & ->%encode_nil). done. }
  assert (H2 : segment ≠ lit "..").
  { intros ->. apply encode_dot_head in Hs as (s' & -> & Hs').
    apply encode_dot_head in Hs' as (s'' & -> & ->%encode_nil). done. }
  unfold request_path, double_dot_segment, single_dot_segment.
  rewrite !bool_decide_eq_false_2; [done | |].
  - intros Hin. repeat (apply elem_of_cons in Hin as [-> | Hin]);
      [done | by eapply Hesc; [reflexivity | right]
            | by eapply Hesc; [reflexivity | left] | by apply elem_of_nil in Hin].
  - intros Hin. repeat (apply elem_of_cons in Hin as [-> | Hin]);
      try done; try (by apply elem_of_nil in Hin);
      try (by eapply Hesc; [reflexivity | (by left) || (by right)]);
      try (by eapply Hdot_esc; [reflexivity | (by left) || (by right)]).
Qed.

(** Reading an encoded string back gives the UTF-8 octets of the code
    points of the string that was encoded. *)
Lemma hex_value_hexDigit (d : N) : (d < 16)%N → hex_value (hexDigit d) = Some d.
Proof.
  intros Hd. unfold hex_value, hexDigit.
  destruct (N.ltb_spec d 10).
  - assert ((48 <=? 48 + d) && (48 + d <=? 57) = true)%N as ->
      by (apply andb_true_iff; split; apply N.leb_le; lia).
    f_equal. lia.
  - assert ((48 <=? 55 + d) && (55 + d <=? 57) = false)%N as ->
      by (apply andb_false_iff; right; apply N.leb_gt; lia).
    assert ((65 <=? 55 + d) && (55 + d <=? 70) = true)%N as ->
      by (apply andb_true_iff; split; apply N.leb_le; lia).
    f_equal. lia.
Qed.

Lemma percent_decode_percent (o : N) t :
  (o < 256)%N →
  percent_decode (percent o ++ t) = (o ::.) <$> percent_decode t.
Proof.
  intros Ho. unfold percent. cbn [app percent_decode N.eqb Pos.eqb].
  assert (o / 16 < 16)%N by (apply N.Div0.div_lt_upper_bound; lia).
  assert (o mod 16 < 16)%N by (apply N.mod_lt; lia).
  rewrite !hex_value_hexDigit by done.
  destruct (percent_decode t) as [octets|]; [|done]. cbn.
  by rewrite <- (N.div_mod o 16) by lia.
Qed.

Lemma percent_decode_percents (os : list N) t :
  Forall (λ o, o < 256)%N os →
  percent_decode (concat (map percent os) ++ t) = (os ++.) <$> percent_decode t.
Proof.
  induction 1 as [|o os Ho _ IH]; cbn [map concat app].
  - by destruct (percent_decode t).
  - rewrite <- app_assoc, percent_decode_percent, IH by done.
    by destruct (percent_decode t).
Qed.

Lemma percent_decode_escape (cp : N) t :
  (cp < 2097152)%N →
  percent_decode (escape cp ++ t) = (utf8 cp ++.) <$> percent_decode t.
Proof. intros Hcp. by apply percent_decode_percents, utf8_octets. Qed.

Lemma percent_decode_unreserved c t :
  uriUnreserved c = true →
  percent_decode (c :: t) = (utf8 c ++.) <$> percent_decode t.
Proof.
  intros Hu. cbn [percent_decode].
  destruct (N.eqb_spec c 37) as [-> | _]; [done |]. rewrite Hu.
  assert (utf8 c = [c]) as ->; [|by destruct (percent_decode t)].
  unfold utf8. assert ((c <? 128)%N = true) as ->; [|done].
  apply N.ltb_lt. unfold uriUnreserved in Hu.
  repeat (apply orb_prop in Hu as [Hu|Hu]);
    try (apply andb_prop in Hu as [_ Hu]; apply N.leb_le in Hu; lia);
    apply N.eqb_eq in Hu; lia.
Qed.

Lemma encode_reads_back (n : nat) s t :
  (length s ≤ n)%nat → Forall (λ c, c < 65536)%N s →
  encodeURIComponent s = Normal t →
  percent_decode t = Some (concat (utf8 <$> code_points s)).
Proof.
  revert s t. induction n as [|n IH]; intros s t Hn Hs.
  { destruct s; [by intros [= <-] | cbn in Hn; lia]. }
  destruct s as [|c s]; [by intros [= <-] |].
  apply Forall_cons in Hs as [Hc Hs]. cbn [length] in Hn.
  intros [(Hu & t1 & -> & Ht1) | [(Hu & Htr & Hle & t1 & -> & Ht1)
    | (Hu & Hle & d & s' & t1 & -> & Hd & -> & Ht1)]]%encode_cons.
  - destruct (unreserved_not_surrogate c Hu) as [_ Hle].
    cbn [code_points]. rewrite Hle. cbn [fmap list_fmap concat].
    rewrite percent_decode_unreserved by done.
    by rewrite (IH s t1) by first [done | lia].
  - cbn [code_points]. rewrite Hle. cbn [fmap list_fmap concat].
    rewrite percent_decode_escape by lia.
    by rewrite (IH s t1) by first [done | lia].
  - apply Forall_cons in Hs as [_ Hs]. cbn [length] in Hn.
    cbn [code_points]. rewrite Hle, Hd. cbn [fmap list_fmap concat].
    rewrite percent_decode_escape by (by apply pair_code_point).
    by rewrite (IH s' t1) by first [done | lia].
Qed.

End Encode.

(** * The handlers, run *)

Section Handlers.

Implicit Types (c : AppState) (env : Env).

Ltac run_prog :=
  unfold try_catch_finally, axios_post, await, eval,
    setLoading, setError, setArticles, setLlmReasoning, setSaving,
    alert, console_error, set, perform, mbind, Prog_bind; simpl.

(** Of the three parameters of a search only the profile can fail to be
    serialised. *)
Lemma serialize_search_params (m d : number) (p : jsstring) :
  serialize [(lit "max_results", PNum m);
             (lit "display_results", PNum d);
             (lit "profile", PStr p)] =
  match encodeURIComponent p with
  | Normal _ => Normal tt
  | Abrupt e => Abrupt e
  end.
Proof.
  cbn [serialize encode_param].
  change (encodeURIComponent (lit "max_results")) with (Normal (lit "max_results")).
  change (encodeURIComponent (lit "display_results"))
    with (Normal (lit "display_results")).
  change (encodeURIComponent (lit "profile")) with (Normal (lit "profile")).
  by destruct (encodeURIComponent p).
Qed.

Lemma axios_get_search url (m d : number) (p : jsstring) :
  axios_get url [(lit "max_results", PNum m);
                 (lit "display_results", PNum d);
                 (lit "profile", PStr p)] =
  if isWellFormed p
  then AxiosGet url [(lit "max_results", PNum m);
                     (lit "display_results", PNum d);
                     (lit "profile", PStr p)] await
  else Throw URIError.
Proof.
  unfold axios_get. rewrite serialize_search_params.
  destruct (encodeURIComponent p) as [t|e] eqn:He.
  - assert (isWellFormed p = true) as -> by (apply encode_defined; eauto). done.
  - destruct (isWellFormed p) eqn:Hwf.
    + apply encode_defined in Hwf as [t Ht]. congruence.
    + by apply encode_error in He as ->.
Qed.

(** A blank query: [handleSearch] returns at its first line. *)
Lemma exec_handleSearch_blank c env :
  blank (query c) →
  exec (handleSearch c) env = (Finished (Normal tt), env, []).
Proof.
  intros Hq%not_str_trim. unfold handleSearch. by rewrite Hq.
Qed.

(** A query that [encodeURIComponent] refuses, or a profile that axios
    cannot serialise: the [catch] and [finally] blocks run at once and no
    request is made. *)
Lemma exec_handleSearch_malformed c env :
  ¬ blank (query c) → encodable c = false →
  exec (handleSearch c) env =
    (Finished (Normal tt),
     with_ui (λ st, setLoading_ false
                (setError_ (lit "Failed to fetch articles. Please try again.")
                   (setError_ (lit "") (setLoading_ true st)))) env,
     [ConsoleError URIError]).
Proof.
  intros Hq%not_str_trim_false Hwf. unfold handleSearch. rewrite Hq.
  destruct (encodeURIComponent (query c)) as [t|e] eqn:He.
  - assert (Hquery : isWellFormed (query c) = true)
      by (apply encode_defined; eauto).
    unfold encodable in Hwf. rewrite Hquery in Hwf. cbn [andb] in Hwf.
    cbn [eval mbind Prog_bind bind]. rewrite axios_get_search, Hwf. by run_prog.
  - apply encode_error in He as ->. by run_prog.
Qed.

(** Any other query and profile: one GET, and the handler waits for the
    reply. *)
Lemma exec_handleSearch_request c env segment :
  ¬ blank (query c) → encodeURIComponent (query c) = Normal segment →
  isWellFormed (profile c) = true →
  ∃ k,
    exec (handleSearch c) env =
      (Suspended (OnGet k),
       with_ui (λ st, setError_ (lit "") (setLoading_ true st)) env,
       [HttpGet (lit "http://localhost:8000/search/" ++ segment)
          [(lit "max_results", PNum (maxSearchResults c));
           (lit "display_results", PNum (displayResults c));
           (lit "profile", PStr (profile c))]]) ∧
    awaited_ok (OnGet k).
Proof.
  intros Hq%not_str_trim_false He Hp. unfold handleSearch. rewrite Hq, He.
  cbn [eval mbind Prog_bind bind]. rewrite axios_get_search, Hp.
  run_prog. eexists. split; [reflexivity |]. by intros [response | err] e.
Qed.

(** [handleSave]: one POST, and the handler waits for the reply. *)
Lemma exec_handleSave c env :
  ∃ k,
    exec (handleSave c) env =
      (Suspended (OnPost k),
       with_ui (setSaving_ true) env,
       [HttpPost (lit "http://localhost:8000/save") (articles c)]) ∧
    awaited_ok (OnPost k).
Proof.
  unfold handleSave. run_prog. eexists. split; [reflexivity |].
  by intros [response | err] e.
Qed.

End Handlers.

(** The three ways a call of [handleSearch] can go. *)
Lemma handleSearch_cases (c : AppState) :
  blank (query c) ∨
  (¬ blank (query c) ∧ encodable c = false) ∨
  (¬ blank (query c) ∧ isWellFormed (profile c) = true ∧
   ∃ segment, encodeURIComponent (query c) = Normal segment).
Proof.
  destruct (not_str (trim (query c))) eqn:Hq.
  - left. by apply not_str_trim.
  - apply not_str_trim_false in Hq. right.
    destruct (encodable c) eqn:Hwf; [right | by left].
    apply andb_prop in Hwf as [Hquery Hprofile].
    split; [done |]. split; [done |]. by apply encode_defined.
Qed.

(** * The search handler *)

(** C1. With a query that is empty or all white space, [handleSearch]
    returns before anything else: no request is made, no effect happens,
    and the state variables and the storage are what they were, whatever
    the state. The same holds for the whole call and for both ways of
    starting a search (the button and the Enter key) in the event
    machine. *)
Theorem blank_query_search_is_noop (c : AppState) (e : Env)
    (r : Reply SearchResponse.t) :
  blank (query c) →
  exec (handleSearch c) e = (Finished (Normal tt), e, []) ∧
  call_search c r e = (Finished (Normal tt), e, []) ∧
  (∀ w ev,
     ui (env w) = c → ev = ClickSearch ∨ ev = KeyPressQuery (lit "Enter") →
     env (step w ev) = env w ∧ pending (step w ev) = pending w ∧
     requests (log (step w ev)) = requests (log w)).
Proof.
  intros Hq. pose proof (exec_handleSearch_blank c e Hq) as He.
  split; [done |]. split; [unfold call_search; by rewrite He |].
  intros w ev <- Hev.
  assert (Hrun : run (handleSearch (ui (env w))) w (pending w) =
    {| env := env w; pending := pending w;
       log := log w ++ [] ++ App_render_effects |}).
  { unfold run. by rewrite exec_handleSearch_blank. }
  assert (Hreq : requests (log w ++ [] ++ App_render_effects) = requests (log w)).
  { unfold requests. rewrite !List.filter_app. simpl. by rewrite app_nil_r. }
  destruct Hev as [-> | ->]; simpl.
  - destruct (loading (ui (env w))); [done |]. by rewrite Hrun.
  - by rewrite Hrun.
Qed.

Lemma blank_query_search_is_noop_witness :
  let c := setQuery_ (lit "  ") (App_initial ∅) in
  let e := {| ui := c; localStorage := ∅ |} in
  blank (query c) ∧
  exec (handleSearch c) e = (Finished (Normal tt), e, []).
Proof.
  intros c e.
  assert (Hq : blank (query c)) by (repeat constructor).
  split; [exact Hq |].
  exact (proj1 (blank_query_search_is_noop c e (Reject ERR_NETWORK) Hq)).
Defined.

(** C5. A search whose request is rejected, whatever the error, whatever
    the state, is a failure as a whole: the article list and the
    reasoning text are the ones from before the call; of all the state
    variables only [error] and [loading] can differ, and the storage is
    untouched. *)
Theorem failed_search_keeps_results (c : AppState) (e : Env) (err : AxiosError) :
  let e' := (call_search c (Reject err) e).1.2 in
  articles (ui e') = articles (ui e) ∧
  llmReasoning (ui e') = llmReasoning (ui e) ∧
  ui e' = setLoading_ (loading (ui e')) (setError_ (error (ui e')) (ui e)) ∧
  localStorage e' = localStorage e.
Proof.
  unfold call_search.
  destruct (handleSearch_cases c) as [Hb | [[Hb Hwf] | [Hb [Hp [segment Hs]]]]].
  - rewrite (exec_handleSearch_blank c e Hb). simpl. by destruct e as [[] ?].
  - by rewrite (exec_handleSearch_malformed c e Hb Hwf).
  - destruct (exec_handleSearch_request c e segment Hb Hs Hp) as (k & -> & Hk).
    simpl. by rewrite Hk.
Qed.

(** C6, as stated, fails: a query holding a lone surrogate code unit is
    not blank, yet [encodeURIComponent] throws on it inside the [try], so
    the handler ends in its [catch] block with the error message set and
    no request made. *)
Lemma lone_surrogate_query_sends_nothing :
  let c := setQuery_ [55357%N] (App_initial ∅) in
  let e := {| ui := c; localStorage := ∅ |} in
  bool_decide (blank (query c)) = false ∧
  exec (handleSearch c) e =
    (Finished (Normal tt),
     with_ui (λ st, setLoading_ false
                (setError_ (lit "Failed to fetch articles. Please try again.") st)) e,
     [ConsoleError URIError]) ∧
  requests (call_search c (Reject ERR_NETWORK) e).2 = [].
Proof. repeat split; by vm_compute. Qed.

(** C6, amended. For every query that is not blank, is well formed (no
    lone surrogate) and is neither [.] nor [..], and every profile that is
    well formed, [handleSearch] makes exactly one request, whatever the
    reply: a GET of [/search/] followed by the query encoded by
    [encodeURIComponent] (that is the URL the code hands to axios, and
    the path a URL parser reads from it), with the three parameters
    [max_results], [display_results] and [profile] taken from the state;
    and when the request is fulfilled, the state holds the response's
    [articles] and [llm_reasoning] as they came. *)
Theorem search_request_and_result (c : AppState) (e : Env) :
  ¬ blank (query c) → isWellFormed (query c) = true →
  isWellFormed (profile c) = true →
  query c ≠ lit "." → query c ≠ lit ".." →
  ∃ segment k,
    let request :=
      HttpGet (lit "http://localhost:8000/search/" ++ segment)
        [(lit "max_results", PNum (maxSearchResults c));
         (lit "display_results", PNum (displayResults c));
         (lit "profile", PStr (profile c))] in
    encodeURIComponent (query c) = Normal segment ∧
    request_path segment = lit "/search/" ++ segment ∧
    (exec (handleSearch c) e).1.1 = Suspended (OnGet k) ∧
    (exec (handleSearch c) e).2 = [request] ∧
    (∀ r, requests (call_search c r e).2 = [request]) ∧
    (∀ response e',
       let done := exec (k (Resolve response)) e' in
       done.1.1 = Finished (Normal tt) ∧
       articles (ui done.1.2) = SearchResponse.articles (data response) ∧
       llmReasoning (ui done.1.2) = SearchResponse.llm_reasoning (data response)) ∧
    (∀ response,
       let e' := (call_search c (Resolve response) e).1.2 in
       articles (ui e') = SearchResponse.articles (data response) ∧
       llmReasoning (ui e') = SearchResponse.llm_reasoning (data response)).
Proof.
  intros Hb Hwf Hp Hdot Hdots. apply encode_defined in Hwf as [segment Hs].
  destruct (exec_handleSearch_request c e segment Hb Hs Hp) as (k & Hk & Hok).
  exists segment, k. simpl. unfold call_search. rewrite Hk. simpl.
  split; [done |]. split; [by apply (encode_request_path (query c)) |].
  split; [done |]. split; [done |]. split.
  { intros [response | err]; simpl; by rewrite Hok. }
  split; intros response; [intros e' |]; by rewrite Hok.
Qed.

Lemma search_request_and_result_witness :
  let c := setQuery_ (lit "graph neural networks") (App_initial ∅) in
  let e := {| ui := c; localStorage := ∅ |} in
  (exec (handleSearch c) e).2 =
    [HttpGet (lit "http://localhost:8000/search/graph%20neural%20networks")
       [(lit "max_results", PNum (Num 50));
        (lit "display_results", PNum (Num 10));
        (lit "profile", PStr (lit ""))]].
Proof.
  intros c e.
  assert (Hb : ¬ blank (query c)).
  { intros H. apply not_str_trim in H. by vm_compute in H. }
  assert (Hwf : isWellFormed (query c) = true) by reflexivity.
  assert (Hp : isWellFormed (profile c) = true) by reflexivity.
  assert (Hdot : query c ≠ lit ".") by (by vm_compute).
  assert (Hdots : query c ≠ lit "..") by (by vm_compute).
  destruct (search_request_and_result c e Hb Hwf Hp Hdot Hdots)
    as (segment & k & Hs & _ & _ & Hreq & _).
  vm_compute in Hs. injection Hs as <-. exact Hreq.
Defined.

(** * Failures and the save handler *)




(** C7. [handleSave] makes exactly one request, a POST to [/save] whose
    body is the article list of the state, element for element; what the
    server answers is not looked at: the state and the effects after a
    fulfilled request are the same for every response. *)
Theorem save_posts_articles_once (c : AppState) (e : Env) :
  ∃ k,
    (exec (handleSave c) e).1.1 = Suspended (OnPost k) ∧
    (exec (handleSave c) e).2 =
      [HttpPost (lit "http://localhost:8000/save") (articles c)] ∧
    (∀ r, requests (call_save c r e).2 =
            [HttpPost (lit "http://localhost:8000/save") (articles c)]) ∧
    (∀ response response' e',
       exec (k (Resolve response)) e' = exec (k (Resolve response')) e') ∧
    (∀ response response',
       call_save c (Resolve response) e = call_save c (Resolve response') e) ∧
    (∀ response,
       ui (call_save c (Resolve response) e).1.2 = setSaving_ false (ui e)).
Proof.
  unfold call_save.
  destruct (exec_handleSave c e) as (k & -> & Hok).
  exists k. simpl. split; [done |]. split; [done |]. split.
  { intros [response | err]; simpl; by rewrite Hok. }
  split; [intros; by rewrite !Hok |]. split; [intros; by rewrite !Hok |].
  intros response. by rewrite Hok.
Qed.

(** * The event machine *)

Section Machine.

Implicit Types (w : World) (ev : Event) (p : Prog unit).

Lemma run_log p w waiting :
  log (run p w waiting) = log w ++ (exec p (env w)).2 ++ App_render_effects.
Proof. unfold run. by destruct (exec p (env w)) as [[o e'] effs]. Qed.

Lemma run_env p w waiting : env (run p w waiting) = (exec p (env w)).1.2.
Proof. unfold run. by destruct (exec p (env w)) as [[o e'] effs]. Qed.

Lemma run_pending p w waiting :
  pending (run p w waiting) =
    match (exec p (env w)).1.1 with
    | Suspended k => waiting ++ [k]
    | Finished _ => waiting
    end.
Proof. unfold run. by destruct (exec p (env w)) as [[o e'] effs]. Qed.

(** A step runs at most one program. *)
Lemma step_cases w ev :
  step w ev = w ∨ ∃ p waiting, step w ev = run p w waiting.
Proof.
  destruct ev; simpl; repeat case_match; eauto.
Qed.

(** A user event runs the handler the rendered tree attaches to it. *)
Lemma step_user w ev :
  network_event ev = false →
  step w ev = match handler (ui (env w)) ev with
              | Some p => run p w (pending w)
              | None => w
              end.
Proof. by destruct ev. Qed.

Lemma log_step w ev : log (step w ev) = log w ++ emitted w ev.
Proof.
  unfold emitted. destruct (step_cases w ev) as [-> | (p & waiting & ->)].
  - by rewrite drop_all, app_nil_r.
  - rewrite run_log. by rewrite drop_app_length.
Qed.

Lemma emitted_run w ev p waiting :
  step w ev = run p w waiting →
  emitted w ev = (exec p (env w)).2 ++ App_render_effects.
Proof.
  intros Hstep. unfold emitted. by rewrite Hstep, run_log, drop_app_length.
Qed.

Lemma emitted_idle w ev : step w ev = w → emitted w ev = [].
Proof. intros Hstep. unfold emitted. by rewrite Hstep, drop_all. Qed.

Lemma run_inv p w waiting :
  Forall awaited_ok waiting → Forall counts_effect (log w) →
  run_ok (exec p (env w)) → reachable_inv (run p w waiting).
Proof.
  intros Hwait Hlog (Hm & Hd & Heffs & Hk).
  split; rewrite ?run_env, ?run_log, ?run_pending; try done.
  - destruct (exec p (env w)).1.1; [done |].
    apply Forall_app. split; [done | by repeat constructor].
  - rewrite !Forall_app. split; [done |]. split; [done |].
    by repeat constructor.
Qed.

Lemma handleSearch_ok w :
  reachable_inv w → run_ok (exec (handleSearch (ui (env w))) (env w)).
Proof.
  intros [_ Hm Hd _]. unfold run_ok.
  destruct (handleSearch_cases (ui (env w)))
    as [Hb | [[Hb Hwf] | [Hb [Hp [segment Hs]]]]].
  - by rewrite (exec_handleSearch_blank _ _ Hb).
  - rewrite (exec_handleSearch_malformed _ _ Hb Hwf). simpl.
    repeat split; try done. by repeat constructor.
  - destruct (exec_handleSearch_request _ (env w) segment Hb Hs Hp) as (k & -> & Hk).
    cbn. repeat split; try done.
    apply Forall_singleton. eexists _, _. split; [by eexists _, _ | done].
Qed.

Lemma handleSave_ok w :
  reachable_inv w → run_ok (exec (handleSave (ui (env w))) (env w)).
Proof.
  intros [_ Hm Hd _]. unfold run_ok.
  destruct (exec_handleSave (ui (env w)) (env w)) as (k & -> & Hk).
  simpl. repeat split; try done. by repeat constructor.
Qed.

Lemma handler_ok w ev p :
  reachable_inv w → handler (ui (env w)) ev = Some p → run_ok (exec p (env w)).
Proof.
  intros Hinv Hp. pose proof Hinv as [_ Hm Hd _].
  destruct ev; cbn [handler] in Hp; repeat case_match; simplify_eq;
    try (by apply handleSearch_ok); try (by apply handleSave_ok);
    unfold run_ok; cbn -[Math_max or_else parseInt]; repeat split; try done;
    try apply clamped_positive_integer; by repeat constructor.
Qed.

Lemma settle_ok w (exec_k : Outcome * Env * list Effect) :
  reachable_inv w →
  (∃ f effs,
     exec_k = (Finished (Normal tt), with_ui f (env w), effs) ∧
     (∀ st, maxSearchResults (f st) = maxSearchResults st ∧
            displayResults (f st) = displayResults st) ∧
     Forall counts_effect effs) →
  run_ok exec_k.
Proof.
  intros [_ Hm Hd _] (f & effs & -> & Hf & Heffs). unfold run_ok. simpl.
  destruct (Hf (ui (env w))) as [-> ->]. done.
Qed.

Lemma step_inv w ev : reachable_inv w → reachable_inv (step w ev).
Proof.
  intros Hinv. pose proof Hinv as [Hpend _ _ Hlog].
  destruct ev; cbn [step];
    try (lazymatch goal with
         | |- context [handler ?c ?e] =>
             destruct (handler c e) as [p|] eqn:Hp; [|done];
             apply run_inv; [done | done | by eapply handler_ok]
         end).
  - destruct (pending w !! i) as [[k|k]|] eqn:Hi; try done.
    apply run_inv; [by apply Forall_delete | done |].
    apply (Forall_lookup_1 _ _ _ _ Hpend) in Hi. simpl in Hi. rewrite Hi.
    apply (settle_ok w); [done |].
    eexists _, _. split; [done |]. split; [by destruct r |].
    destruct r; by repeat constructor.
  - destruct (pending w !! i) as [[k|k]|] eqn:Hi; try done.
    apply run_inv; [by apply Forall_delete | done |].
    apply (Forall_lookup_1 _ _ _ _ Hpend) in Hi. simpl in Hi. rewrite Hi.
    apply (settle_ok w); [done |].
    eexists _, _. split; [done |]. split; [by destruct r |].
    destruct r; by repeat constructor.
Qed.

Lemma mount_inv storage : reachable_inv (mount storage).
Proof.
  split; simpl; try done; try (by eexists; split; [reflexivity | lia]).
  by repeat constructor.
Qed.

Lemma steps_inv w evs : reachable_inv w → reachable_inv (steps w evs).
Proof.
  revert w. induction evs as [|ev evs IH]; intros w Hw; [done |].
  simpl. by apply IH, step_inv.
Qed.

Lemma reachable storage evs : reachable_inv (steps (mount storage) evs).
Proof. apply steps_inv, mount_inv. Qed.

End Machine.

(** * The article list *)

Section Articles.

Implicit Types (w : World) (ev : Event) (p : Prog unit).

(** The part of [handleSearch] before the reply, and the part of
    [handleSave] before the reply, leave the article list alone. *)
Lemma handleSearch_articles (c : AppState) (e : Env) :
  articles (ui (exec (handleSearch c) e).1.2) = articles (ui e).
Proof.
  destruct (handleSearch_cases c) as [Hb | [[Hb Hwf] | [Hb [Hp [segment Hs]]]]].
  - by rewrite (exec_handleSearch_blank _ _ Hb).
  - by rewrite (exec_handleSearch_malformed _ _ Hb Hwf).
  - by destruct (exec_handleSearch_request c e segment Hb Hs Hp) as (k & -> & Hk).
Qed.

Lemma handleSave_articles (c : AppState) (e : Env) :
  articles (ui (exec (handleSave c) e).1.2) = articles (ui e).
Proof. by destruct (exec_handleSave c e) as (k & -> & Hk). Qed.

(** Of the handlers of user events, only the one of a card's close button
    writes the article list, and it deletes that card's article. *)
Lemma user_event_articles w ev p :
  handler (ui (env w)) ev = Some p →
  articles (ui (exec p (env w)).1.2) =
    match ev with
    | ClickDismiss index => delete index (articles (ui (env w)))
    | _ => articles (ui (env w))
    end.
Proof.
  intros Hp.
  destruct ev; cbn [handler] in Hp; repeat case_match; simplify_eq;
    try apply handleSearch_articles; try apply handleSave_articles;
    try done.
  cbn. apply filter_delete.
Qed.

End Articles.

(** C8. The article list of the state changes in two ways only. A user
    action never writes a field of an article and never adds or reorders
    one: the close button of card [index] gives the list with exactly the
    element at [index] taken out (the elements before it stay at their
    positions, the ones after it move up by one), and every other user
    action leaves the list as it is. A settled request either leaves the
    list as it is or, for a fulfilled search, replaces it by the list the
    response carries. This holds in every state the component can reach
    from its first render. *)
Theorem articles_only_lose_entries (storage : gmap jsstring jsstring)
    (evs : list Event) (ev : Event) :
  let w := steps (mount storage) evs in
  let before := articles (ui (env w)) in
  let after := articles (ui (env (step w ev))) in
  match ev with
  | ClickDismiss index =>
      after = take index before ++ drop (S index) before ∧
      ∀ j : nat, after !! j = before !! (if decide (j < index)%nat then j else S j)
  | SettleGet _ (Resolve response) =>
      after = before ∨ after = SearchResponse.articles (data response)
  | _ => after = before
  end.
Proof.
  intros w before after. subst before after.
  pose proof (reachable storage evs) as [Hpend _ _ _]. fold w in Hpend.
  assert (Huser : ∀ ev', network_event ev' = false →
    articles (ui (env (step w ev'))) =
      match ev' with
      | ClickDismiss index => delete index (articles (ui (env w)))
      | _ => articles (ui (env w))
      end).
  { intros ev' Hev. rewrite (step_user w ev' Hev).
    destruct (handler (ui (env w)) ev') as [p|] eqn:Hh.
    - rewrite run_env. by apply user_event_articles.
    - destruct ev'; try done. cbn [handler] in Hh. case_bool_decide; [done |].
      rewrite delete_take_drop, take_ge, drop_ge by lia. by rewrite app_nil_r. }
  destruct ev; try (by apply Huser).
  - rewrite Huser by done. split; [apply delete_take_drop |].
    intros j. apply list_lookup_delete.
  - cbn [step]. destruct (pending w !! i) as [[k|k]|] eqn:Hi;
      [|destruct r; by auto..].
    apply (Forall_lookup_1 _ _ _ _ Hpend) in Hi. cbn in Hi.
    rewrite run_env, Hi. destruct r; cbn; by auto.
  - cbn [step]. destruct (pending w !! i) as [[k|k]|] eqn:Hi; try done.
    apply (Forall_lookup_1 _ _ _ _ Hpend) in Hi. cbn in Hi.
    rewrite run_env, Hi. by destruct r.
Qed.

(** * The profile *)

Section Profile.

Implicit Types (w : World) (ev : Event) (p : Prog unit).

Lemma handleSearch_profile (c : AppState) (e : Env) :
  Forall (profile_effect (profile c)) (exec (handleSearch c) e).2 ∧
  localStorage (exec (handleSearch c) e).1.2 = localStorage e.
Proof.
  destruct (handleSearch_cases c) as [Hb | [[Hb Hwf] | [Hb [Hp [segment Hs]]]]].
  - by rewrite (exec_handleSearch_blank _ _ Hb).
  - rewrite (exec_handleSearch_malformed _ _ Hb Hwf). cbn.
    split; [by apply Forall_singleton | done].
  - destruct (exec_handleSearch_request c e segment Hb Hs Hp) as (k & -> & Hk).
    cbn. split; [by apply Forall_singleton | done].
Qed.

Lemma handleSave_profile (c : AppState) (e : Env) :
  Forall (profile_effect (profile c)) (exec (handleSave c) e).2 ∧
  localStorage (exec (handleSave c) e).1.2 = localStorage e.
Proof.
  destruct (exec_handleSave c e) as (k & -> & Hk). cbn.
  split; [by apply Forall_singleton | done].
Qed.

(** What a handler of a user event does about the profile: its requests
    carry the profile of the state, and it writes the storage under the
    key [userProfile] only, with that profile as the value. *)
Lemma user_event_profile w ev p :
  handler (ui (env w)) ev = Some p →
  Forall (profile_effect (profile (ui (env w)))) (exec p (env w)).2 ∧
  ∀ key, key ≠ lit "userProfile" →
         localStorage (exec p (env w)).1.2 !! key = localStorage (env w) !! key.
Proof.
  intros Hp.
  destruct ev; cbn [handler] in Hp; repeat case_match; simplify_eq;
    try (destruct (handleSearch_profile (ui (env w)) (env w)) as [? ->]; done);
    try (destruct (handleSave_profile (ui (env w)) (env w)) as [? ->]; done);
    try done.
  cbn. split; [by apply Forall_singleton |].
  intros key Hkey. by rewrite lookup_insert_ne.
Qed.

Lemma settled_profile w (r : Outcome * Env * list Effect) (p0 : jsstring) :
  (∃ f effs, r = (Finished (Normal tt), with_ui f (env w), effs) ∧
             Forall (λ eff, is_request eff = false ∧
                            ∀ k v, eff ≠ StorageSet k v ∧ eff ≠ StorageGet k) effs) →
  Forall (profile_effect p0) r.2 ∧ localStorage r.1.2 = localStorage (env w).
Proof.
  intros (f & effs & -> & Heffs). split; [|done]. cbn.
  eapply Forall_impl; [exact Heffs |]. intros eff [Hreq Hst].
  destruct eff; cbn in *; try done.
  - by destruct (Hst key key) as [_ ?].
  - by destruct (Hst key value) as [? _].
Qed.

(** One step of a reachable world, as far as the profile goes. *)
Lemma step_profile w ev :
  Forall awaited_ok (pending w) →
  Forall (profile_effect (profile (ui (env w)))) (emitted w ev) ∧
  ∀ key, key ≠ lit "userProfile" →
         localStorage (env (step w ev)) !! key = localStorage (env w) !! key.
Proof.
  intros Hpend.
  assert (Hrun : ∀ p waiting,
    step w ev = run p w waiting →
    (Forall (profile_effect (profile (ui (env w)))) (exec p (env w)).2 ∧
     ∀ key, key ≠ lit "userProfile" →
            localStorage (exec p (env w)).1.2 !! key = localStorage (env w) !! key) →
    Forall (profile_effect (profile (ui (env w)))) (emitted w ev) ∧
    ∀ key, key ≠ lit "userProfile" →
           localStorage (env (step w ev)) !! key = localStorage (env w) !! key).
  { intros p waiting Hstep [Heffs Hst]. unfold emitted. rewrite Hstep.
    rewrite run_log, run_env, drop_app_length. split; [|done].
    apply Forall_app. split; [done |]. by apply Forall_singleton. }
  assert (Hidle : step w ev = w →
    Forall (profile_effect (profile (ui (env w)))) (emitted w ev) ∧
    ∀ key, key ≠ lit "userProfile" →
           localStorage (env (step w ev)) !! key = localStorage (env w) !! key).
  { intros Hstep. unfold emitted. rewrite Hstep, drop_all. by split. }
  assert (Hsettled : ∀ (r : Outcome * Env * list Effect),
    (∃ f effs, r = (Finished (Normal tt), with_ui f (env w), effs) ∧
       Forall (λ eff, is_request eff = false ∧
                      ∀ k v, eff ≠ StorageSet k v ∧ eff ≠ StorageGet k) effs) →
    Forall (profile_effect (profile (ui (env w)))) r.2 ∧
    ∀ key, key ≠ lit "userProfile" →
           localStorage r.1.2 !! key = localStorage (env w) !! key).
  { intros r Hr. destruct (settled_profile w r (profile (ui (env w))) Hr) as [? ->].
    by split. }
  destruct (network_event ev) eqn:Hev.
  2:{ pose proof (step_user w ev Hev) as Hstep.
      destruct (handler (ui (env w)) ev) as [p|] eqn:Hp; [|by apply Hidle].
      exact (Hrun p (pending w) Hstep (user_event_profile w ev p Hp)). }
  destruct ev; try done.
  - destruct (pending w !! i) as [[k|k]|] eqn:Hi;
      [|apply Hidle; cbn [step]; by rewrite Hi..].
    eapply Hrun; [cbn [step]; by rewrite Hi |].
    apply (Forall_lookup_1 _ _ _ _ Hpend) in Hi. cbn in Hi. rewrite Hi.
    apply Hsettled. eexists _, _. split; [done |].
    destruct r; cbn; [done |]. by apply Forall_singleton.
  - destruct (pending w !! i) as [[k|k]|] eqn:Hi;
      [apply Hidle; cbn [step]; by rewrite Hi | |apply Hidle; cbn [step]; by rewrite Hi].
    eapply Hrun; [cbn [step]; by rewrite Hi |].
    apply (Forall_lookup_1 _ _ _ _ Hpend) in Hi. cbn in Hi. rewrite Hi.
    apply Hsettled. eexists _, _. split; [done |].
    destruct r; cbn; by apply Forall_singleton.
Qed.

(** Over a whole run, the storage differs from the one the component was
    mounted on under the key [userProfile] at most. *)
Lemma steps_storage storage evs key :
  key ≠ lit "userProfile" →
  localStorage (env (steps (mount storage) evs)) !! key = storage !! key.
Proof.
  intros Hkey. induction evs as [|ev evs IH] using rev_ind; [done |].
  unfold steps in *. rewrite foldl_snoc.
  destruct (step_profile (foldl step (mount storage) evs) ev) as [_ ->];
    [apply reachable | done | done].
Qed.

End Profile.

(** What the events write to the storage: the Save Profile button of the
    open editor writes the profile of the state under [userProfile], and
    nothing else writes. *)
Lemma step_writes w ev :
  Forall awaited_ok (pending w) →
  writes (emitted w ev) =
    match ev with
    | ClickSaveProfile =>
        if showProfileEditor (ui (env w))
        then [(lit "userProfile", profile (ui (env w)))]
        else []
    | _ => []
    end.
Proof.
  intros Hpend.
  assert (Hquiet : ∀ f,
    step w ev = run (set f) w (pending w) → writes (emitted w ev) = []).
  { intros f Hstep. by rewrite (emitted_run _ _ _ _ Hstep). }
  assert (Hsearch : writes ((exec (handleSearch (ui (env w))) (env w)).2
                            ++ App_render_effects) = []).
  { destruct (handleSearch_cases (ui (env w)))
      as [Hb | [[Hb Hwf] | [Hb [Hp [segment Hs]]]]].
    - by rewrite (exec_handleSearch_blank _ _ Hb).
    - by rewrite (exec_handleSearch_malformed _ _ Hb Hwf).
    - by destruct (exec_handleSearch_request _ (env w) segment Hb Hs Hp)
        as (k & -> & _). }
  destruct ev; try (by apply (Hquiet _ eq_refl)).
  - destruct (showProfileEditor (ui (env w))) eqn:Hshow.
    + apply (Hquiet (setProfile_ value)). cbn [step handler]. by rewrite Hshow.
    + rewrite emitted_idle; [done |]. cbn [step handler]. by rewrite Hshow.
  - destruct (showProfileEditor (ui (env w))) eqn:Hshow.
    + erewrite emitted_run by (cbn [step handler]; by rewrite Hshow). done.
    + rewrite emitted_idle; [done |]. cbn [step handler]. by rewrite Hshow.
  - destruct (jsstring_eqb key (lit "Enter")) eqn:Hkey.
    + erewrite emitted_run by (cbn [step handler]; by rewrite Hkey). done.
    + erewrite emitted_run by (cbn [step handler]; by rewrite Hkey). done.
  - destruct (loading (ui (env w))) eqn:Hl.
    + rewrite emitted_idle; [done |]. cbn [step handler]. by rewrite Hl.
    + erewrite emitted_run by (cbn [step handler]; by rewrite Hl). done.
  - destruct (bool_decide (index < length (articles (ui (env w))))%nat) eqn:Hi.
    + erewrite emitted_run by (cbn [step handler]; by rewrite Hi). done.
    + rewrite emitted_idle; [done |]. cbn [step handler]. by rewrite Hi.
  - destruct (bool_decide (index < length (articles (ui (env w))))%nat) eqn:Hi.
    + erewrite emitted_run by (cbn [step handler]; by rewrite Hi). done.
    + rewrite emitted_idle; [done |]. cbn [step handler]. by rewrite Hi.
  - destruct (bool_decide (0 < length (articles (ui (env w))))%nat
              && negb (saving (ui (env w)))) eqn:Hen.
    + erewrite emitted_run by (cbn [step handler]; by rewrite Hen).
      by destruct (exec_handleSave (ui (env w)) (env w)) as (k & -> & _).
    + rewrite emitted_idle; [done |]. cbn [step handler]. by rewrite Hen.
  - destruct (pending w !! i) as [[k|k]|] eqn:Hi.
    + erewrite emitted_run by (cbn [step]; by rewrite Hi).
      apply (Forall_lookup_1 _ _ _ _ Hpend) in Hi. cbn in Hi. rewrite Hi.
      by destruct r.
    + rewrite emitted_idle; [done |]. cbn [step]. by rewrite Hi.
    + rewrite emitted_idle; [done |]. cbn [step]. by rewrite Hi.
  - destruct (pending w !! i) as [[k|k]|] eqn:Hi.
    + rewrite emitted_idle; [done |]. cbn [step]. by rewrite Hi.
    + erewrite emitted_run by (cbn [step]; by rewrite Hi).
      apply (Forall_lookup_1 _ _ _ _ Hpend) in Hi. cbn in Hi. rewrite Hi.
      by destruct r.
    + rewrite emitted_idle; [done |]. cbn [step]. by rewrite Hi.
Qed.

(** The storage after an event: the one before it, with the profile of
    the state put under [userProfile] by the Save Profile button of the
    open editor. *)
Lemma step_storage w ev :
  Forall awaited_ok (pending w) →
  localStorage (env (step w ev)) =
    match ev with
    | ClickSaveProfile =>
        if showProfileEditor (ui (env w))
        then <[lit "userProfile" := profile (ui (env w))]> (localStorage (env w))
        else localStorage (env w)
    | _ => localStorage (env w)
    end.
Proof.
  intros Hpend.
  destruct ev; cbn [step handler]; try done.
  - by destruct (showProfileEditor (ui (env w))).
  - by destruct (showProfileEditor (ui (env w))).
  - destruct (jsstring_eqb key (lit "Enter")); [|done].
    rewrite run_env.
    by destruct (handleSearch_profile (ui (env w)) (env w)) as [_ ->].
  - destruct (loading (ui (env w))); [done |]. rewrite run_env.
    by destruct (handleSearch_profile (ui (env w)) (env w)) as [_ ->].
  - by case_bool_decide.
  - by case_bool_decide.
  - destruct (bool_decide (0 < length (articles (ui (env w))))%nat
              && negb (saving (ui (env w)))); [|done].
    rewrite run_env.
    by destruct (handleSave_profile (ui (env w)) (env w)) as [_ ->].
  - destruct (pending w !! i) as [[k|k]|] eqn:Hi; try done.
    apply (Forall_lookup_1 _ _ _ _ Hpend) in Hi. cbn in Hi.
    by rewrite run_env, Hi.
  - destruct (pending w !! i) as [[k|k]|] eqn:Hi; try done.
    apply (Forall_lookup_1 _ _ _ _ Hpend) in Hi. cbn in Hi.
    by rewrite run_env, Hi.
Qed.

(** C9. The profile of the state goes out with every search request, as
    the parameter [profile], empty or not. Of the browser's storage the
    component touches one key: the first render reads [userProfile] (and
    starts from the empty profile when nothing is stored there), every
    storage read or write of any later event is under [userProfile], and
    the entries under all other keys are the ones the component was
    mounted on. The one write there is, is the Save Profile button's: with
    the editor open it writes the profile of the state under
    [userProfile], so that the storage afterwards holds it there; no other
    event writes, and the storage stays as it is. *)
Theorem profile_sent_and_stored_under_one_key (storage : gmap jsstring jsstring)
    (evs : list Event) (ev : Event) :
  let w := steps (mount storage) evs in
  log (mount storage) = [StorageGet (lit "userProfile")] ∧
  profile (ui (env (mount storage))) =
    str_or_else (storage !! lit "userProfile") (lit "") ∧
  Forall (profile_effect (profile (ui (env w)))) (emitted w ev) ∧
  (∀ key, key ≠ lit "userProfile" →
          localStorage (env w) !! key = storage !! key ∧
          localStorage (env (step w ev)) !! key = storage !! key) ∧
  writes (emitted w ev) =
    match ev with
    | ClickSaveProfile =>
        if showProfileEditor (ui (env w))
        then [(lit "userProfile", profile (ui (env w)))]
        else []
    | _ => []
    end ∧
  localStorage (env (step w ev)) =
    match ev with
    | ClickSaveProfile =>
        if showProfileEditor (ui (env w))
        then <[lit "userProfile" := profile (ui (env w))]> (localStorage (env w))
        else localStorage (env w)
    | _ => localStorage (env w)
    end.
Proof.
  intros w. split; [done |]. split; [done |].
  destruct (step_profile w ev) as [Heffs Hst]; [apply reachable |].
  split; [done |]. split.
  { intros key Hkey. rewrite (Hst key Hkey). split; by apply steps_storage. }
  split; [apply step_writes, reachable | apply step_storage, reachable].
Qed.

(** * The two counts *)

(** C2 fails on the code. The field's [max: 300] is an attribute of the
    input element; the handler clamps from below only. Typing 500 and
    searching sends [max_results=500]. *)
Theorem max_results_above_300_is_sent :
  requests (log (steps (mount ∅)
    [ChangeMaxSearchResults (lit "500"); ChangeQuery (lit "x"); ClickSearch])) =
  [HttpGet (lit "http://localhost:8000/search/x")
     [(lit "max_results", PNum (Num 500));
      (lit "display_results", PNum (Num 10));
      (lit "profile", PStr (lit ""))]].
Proof. by vm_compute. Qed.

(** C3 fails on the code. Nothing compares the two counts: lowering the
    first under the second, or raising the second over the first, sends
    [display_results] greater than [max_results]. *)
Theorem display_results_above_max_results_is_sent :
  requests (log (steps (mount ∅)
    [ChangeMaxSearchResults (lit "5"); ChangeQuery (lit "x"); ClickSearch])) =
  [HttpGet (lit "http://localhost:8000/search/x")
     [(lit "max_results", PNum (Num 5));
      (lit "display_results", PNum (Num 10));
      (lit "profile", PStr (lit ""))]] ∧
  requests (log (steps (mount ∅)
    [ChangeDisplayResults (lit "80"); ChangeQuery (lit "x"); ClickSearch])) =
  [HttpGet (lit "http://localhost:8000/search/x")
     [(lit "max_results", PNum (Num 50));
      (lit "display_results", PNum (Num 80));
      (lit "profile", PStr (lit ""))]].
Proof. split; by vm_compute. Qed.

(** X6. What does hold of the two counts: in every run from the first render,
    every search request carries [max_results] and [display_results] that
    are integers and at least 1. *)
Theorem counts_sent_are_positive_integers (storage : gmap jsstring jsstring)
    (evs : list Event) :
  Forall counts_effect (log (steps (mount storage) evs)).
Proof. apply reachable. Qed.

(** * [truncateText] *)

(** [truncateText] is a closure of [App] and has one call,
    [truncateText(article.description, 5)]: its count of lines is never
    negative. Were it, [slice] would count its end from the end of the
    array and keep all words except the last [-(lines * 10)]. *)
Lemma truncateText_negative_lines :
  let text := lit "a b c d e f g h i j k l" in
  let words := split 32%N text in
  truncateText text (-1) = lit "a b..." ∧
  join (lit " ") (take (Z.to_nat (-1 * 10)) words) ++ lit "..." = lit "...".
Proof. split; by vm_compute. Qed.

(** C10. For a count of lines (a number that is not negative; the one
    call in the component passes 5), [truncateText text lines] is the
    first [lines * 10] of the words of [text], joined by
    single spaces, followed by ["..."] exactly when [text] has more than
    [lines * 10] words. The words are the pieces between the spaces of
    [text]: no word holds a space, joining them by single spaces gives
    [text] back, and there is one word more than there are spaces (two
    spaces in a row have an empty word between them). So a text of at
    most [lines * 10] words comes back unchanged, consecutive spaces or
    not. *)
Theorem truncateText_first_words (text : jsstring) (lines : Z) :
  0 ≤ lines →
  let words := split 32%N text in
  let n := Z.to_nat (lines * 10) in
  Forall (λ word, 32%N ∉ word) words ∧
  join (lit " ") words = text ∧
  length words = S (length (List.filter (N.eqb 32) text)) ∧
  ((n < length words)%nat →
   truncateText text lines = join (lit " ") (take n words) ++ lit "...") ∧
  ((length words ≤ n)%nat →
   truncateText text lines = join (lit " ") (take n words) ∧
   truncateText text lines = text).
Proof.
  intros Hlines words n.
  assert (Hjoin : join (lit " ") words = text) by apply (join_split 32%N).
  split; [apply split_words |]. split; [done |].
  split; [apply length_split |].
  unfold truncateText. fold words. rewrite slice_0 by lia. fold n.
  split; intros Hn.
  - destruct (Z.ltb_spec (lines * 10) (Z.of_nat (length words))); [done | lia].
  - destruct (Z.ltb_spec (lines * 10) (Z.of_nat (length words))); [lia |].
    rewrite take_ge by done. by rewrite app_nil_r.
Qed.

Lemma truncateText_first_words_witness :
  truncateText (lit "a b c d e f g h i j k l") 1 = lit "a b c d e f g h i j..." ∧
  truncateText (lit "short  text") 5 = lit "short  text".
Proof.
  split.
  - destruct (truncateText_first_words (lit "a b c d e f g h i j k l") 1)
      as (_ & _ & _ & Hmore & _); [lia |].
    rewrite Hmore; [reflexivity | vm_compute; lia].
  - destruct (truncateText_first_words (lit "short  text") 5)
      as (_ & _ & _ & _ & Hfew); [lia |].
    apply Hfew. vm_compute. lia.
Defined.

(** * Further properties *)

(** X1. A rejected search request, settling in any state the component can
    reach (other events may have happened since the request was made),
    leaves the article list and the reasoning text as they are at that
    moment; only [error] and [loading] can change. *)
Theorem rejected_search_settles_without_touching_results
    (storage : gmap jsstring jsstring) (evs : list Event) (i : nat)
    (err : AxiosError) :
  let w := steps (mount storage) evs in
  let w' := step w (SettleGet i (Reject err)) in
  articles (ui (env w')) = articles (ui (env w)) ∧
  llmReasoning (ui (env w')) = llmReasoning (ui (env w)) ∧
  ui (env w') =
    setLoading_ (loading (ui (env w'))) (setError_ (error (ui (env w'))) (ui (env w))).
Proof.
  intros w w'. subst w'.
  pose proof (reachable storage evs) as [Hpend _ _ _]. fold w in Hpend.
  cbn [step]. destruct (pending w !! i) as [[k|k]|] eqn:Hi;
    try (by destruct (ui (env w))).
  apply (Forall_lookup_1 _ _ _ _ Hpend) in Hi. cbn in Hi.
  by rewrite run_env, Hi.
Qed.

(** X7. The count fields have no upper bound: whatever was typed before,
    a value that reads as an integer [n] of at least 1 becomes the
    [maxSearchResults] (or [displayResults]) of the state as it is. *)
Theorem typed_count_is_stored_unbounded (storage : gmap jsstring jsstring)
    (evs : list Event) (value : jsstring) (n : Z) :
  parseInt value = Num n → 1 ≤ n →
  let w := steps (mount storage) evs in
  maxSearchResults (ui (env (step w (ChangeMaxSearchResults value)))) = Num n ∧
  displayResults (ui (env (step w (ChangeDisplayResults value)))) = Num n.
Proof.
  intros Hv Hn w. cbn [step handler]. rewrite !run_env.
  cbn -[Math_max or_else parseInt]. by rewrite (clamped_of_parsed value n).
Qed.

Lemma typed_count_is_stored_unbounded_witness :
  maxSearchResults (ui (env (step (steps (mount ∅) [])
    (ChangeMaxSearchResults (lit "100000"))))) = Num 100000.
Proof.
  refine (proj1 (typed_count_is_stored_unbounded ∅ [] (lit "100000") 100000 _ _)).
  - reflexivity.
  - lia.
Defined.

(** X2. [text.split(' ').join(' ')] is [text], for every [text]. *)
Theorem split_then_join_is_identity (text : jsstring) :
  join (lit " ") (split 32%N text) = text.
Proof. apply (join_split 32%N). Qed.

(** X3. [encodeURIComponent] returns a string exactly for the well-formed
    strings, and what it throws otherwise is a URIError. *)
Theorem encodeURIComponent_defined_iff_well_formed (s : jsstring) :
  ((∃ t, encodeURIComponent s = Normal t) ↔ isWellFormed s = true) ∧
  (∀ e, encodeURIComponent s = Abrupt e → e = URIError).
Proof. split; [apply encode_defined | apply encode_error]. Qed.

(** X5. [!query.trim()] holds exactly when the query is empty or all
    white space. *)
Theorem trim_is_empty_iff_blank (s : jsstring) :
  not_str (trim s) = true ↔ blank s.
Proof. apply not_str_trim. Qed.
(** * The machine in closed form *)

Section ClosedForm.

Implicit Types (w : World) (ev : Event) (st : AppState).

Lemma search_sends_blank st : blank (query st) → search_sends st = false.
Proof. intros H%not_str_trim. unfold search_sends. by rewrite H. Qed.

Lemma run_handleSearch w :
  let w' := run (handleSearch (ui (env w))) w (pending w) in
  ui (env w') = search_started (ui (env w)) ∧
  localStorage (env w') = localStorage (env w) ∧
  is_get <$> pending w' =
    (is_get <$> pending w) ++ (if search_sends (ui (env w)) then [true] else []).
Proof.
  cbv zeta. rewrite run_env, run_pending. unfold search_started, search_sends.
  destruct (handleSearch_cases (ui (env w)))
    as [Hb | [[Hb Hwf] | [Hb [Hp [segment Hs]]]]].
  - rewrite (exec_handleSearch_blank _ _ Hb).
    apply not_str_trim in Hb as ->. cbn. by rewrite app_nil_r.
  - rewrite (exec_handleSearch_malformed _ _ Hb Hwf), Hwf.
    apply not_str_trim_false in Hb as ->. cbn. by rewrite app_nil_r.
  - destruct (exec_handleSearch_request _ (env w) segment Hb Hs Hp) as (k & -> & _).
    assert (Hwf : encodable (ui (env w)) = true).
    { unfold encodable. rewrite Hp, andb_true_r. apply encode_defined. eauto. }
    rewrite Hwf. apply not_str_trim_false in Hb as ->.
    cbn. by rewrite fmap_app.
Qed.

Lemma run_handleSave w :
  let w' := run (handleSave (ui (env w))) w (pending w) in
  ui (env w') = setSaving_ true (ui (env w)) ∧
  localStorage (env w') = localStorage (env w) ∧
  is_get <$> pending w' = (is_get <$> pending w) ++ [false].
Proof.
  cbv zeta. rewrite run_env, run_pending.
  destruct (exec_handleSave (ui (env w)) (env w)) as (k & -> & _).
  cbn. by rewrite fmap_app.
Qed.

Lemma observe_run_set w (f : AppState → AppState) :
  observe (run (set f) w (pending w)) =
    (f (ui (env w)), is_get <$> pending w, localStorage (env w)).
Proof. done. Qed.

(** Every event does to the state variables, to the pending requests and to
    the storage what the closed form says, in every world whose pending
    handlers are the component's own. *)
Lemma step_closed_form w ev :
  Forall awaited_ok (pending w) → observe (step w ev) = next (observe w) ev.
Proof.
  intros Hpend. unfold observe at 2. cbn [next].
  destruct ev; cbn [step handler next_ui next_kinds next_storage].
  - done.
  - by destruct (showProfileEditor (ui (env w))).
  - by destruct (showProfileEditor (ui (env w))).
  - done.
  - destruct (jsstring_eqb key (lit "Enter")); [|done].
    destruct (run_handleSearch w) as (Hui & Hst & Hk). unfold observe.
    rewrite Hui, Hst, Hk. cbn.
    destruct (search_sends (ui (env w))); by rewrite ?app_nil_r.
  - done.
  - done.
  - destruct (loading (ui (env w))); [done |].
    destruct (run_handleSearch w) as (Hui & Hst & Hk). unfold observe.
    rewrite Hui, Hst, Hk. cbn.
    destruct (search_sends (ui (env w))); by rewrite ?app_nil_r.
  - case_bool_decide; [|done]. done.
  - case_bool_decide; [|done]. unfold observe. cbn. by rewrite filter_delete.
  - destruct (bool_decide (0 < length (articles (ui (env w))))%nat
              && negb (saving (ui (env w)))); [|done].
    destruct (run_handleSave w) as (Hui & Hst & Hk). unfold observe.
    by rewrite Hui, Hst, Hk.
  - done.
  - rewrite list_lookup_fmap.
    destruct (pending w !! i) as [[k|k]|] eqn:Hi; cbn; try done.
    apply (Forall_lookup_1 _ _ _ _ Hpend) in Hi. cbn in Hi.
    unfold observe, run. rewrite Hi. cbn. by rewrite list_fmap_delete.
  - rewrite list_lookup_fmap.
    destruct (pending w !! i) as [[k|k]|] eqn:Hi; cbn; try done.
    apply (Forall_lookup_1 _ _ _ _ Hpend) in Hi. cbn in Hi.
    unfold observe, run. rewrite Hi. cbn. by rewrite list_fmap_delete.
Qed.

(** A run from the first render, observed, is the closed form folded over
    the events. *)
Lemma steps_closed_form storage evs :
  observe (steps (mount storage) evs) = foldl next (observe (mount storage)) evs.
Proof.
  induction evs as [|ev evs IH] using rev_ind; [done |].
  unfold steps in *. rewrite !foldl_snoc, <- IH.
  apply step_closed_form. apply reachable.
Qed.

End ClosedForm.

(** * Requests on their way *)

Section InFlight.

Implicit Types (st : AppState) (kinds : list bool) (ev : Event).

Lemma count_kind_app b kinds kinds' :
  count_kind b (kinds ++ kinds') = (count_kind b kinds + count_kind b kinds')%nat.
Proof. unfold count_kind. by rewrite List.filter_app, length_app. Qed.

Lemma count_kind_delete b kinds i :
  kinds !! i = Some b →
  count_kind b kinds = S (count_kind b (delete i kinds)) ∧
  count_kind (negb b) (delete i kinds) = count_kind (negb b) kinds.
Proof.
  revert i. induction kinds as [|c kinds IH]; intros i Hi; [done |].
  destruct i as [|i].
  - injection Hi as ->. unfold count_kind. cbn. by destruct b.
  - destruct (IH i Hi) as [IH1 IH2]. unfold count_kind in *.
    change (delete (S i) (c :: kinds)) with (c :: delete i kinds).
    cbn [List.filter].
    destruct (Bool.eqb b c), (Bool.eqb (negb b) c); cbn [length];
      split; congruence.
Qed.

Lemma search_started_fields st :
  saving (search_started st) = saving st ∧
  (loading (search_started st) = true →
   loading st = true ∨ search_sends st = true).
Proof.
  unfold search_started, search_sends.
  destruct (not_str (trim (query st))); [by auto |].
  destruct (encodable st); cbn; [|done].
  split; [done |]. intros _. by right.
Qed.

Lemma search_started_sends st :
  search_sends st = true → loading (search_started st) = true.
Proof.
  unfold search_started, search_sends. intros [Hb Hwf]%andb_prop.
  apply negb_true_iff in Hb as ->. by rewrite Hwf.
Qed.

Lemma in_flight_search st kinds storage :
  in_flight_inv (st, kinds, storage) →
  in_flight_inv (search_started st,
                 if search_sends st then kinds ++ [true] else kinds, storage).
Proof.
  intros [Hsave Hload]. destruct (search_started_fields st) as [Hs Hl].
  unfold in_flight_inv. rewrite Hs.
  destruct (search_sends st) eqn:Hsends.
  - rewrite !count_kind_app. cbn. split; lia.
  - split; [done |]. intros [? | ?]%Hl; [by apply Hload | done].
Qed.

Lemma in_flight_next o ev : in_flight_inv o → in_flight_inv (next o ev).
Proof.
  destruct o as [[st kinds] storage]. intros Hinv. pose proof Hinv as [Hsave Hload].
  unfold next. destruct ev; cbn [next_ui next_kinds]; try done.
  - by destruct (showProfileEditor st).
  - by destruct (showProfileEditor st).
  - destruct (jsstring_eqb key (lit "Enter")); [|done].
    by apply in_flight_search.
  - destruct (loading st); [done |]. by apply in_flight_search.
  - by case_bool_decide.
  - by case_bool_decide.
  - destruct (bool_decide (0 < length (articles st))%nat && negb (saving st))
      eqn:Hen; [|done].
    apply andb_prop in Hen as [_ Hs%negb_true_iff]. rewrite Hs in Hsave.
    unfold in_flight_inv. rewrite !count_kind_app. cbn. split; [lia |].
    intros Hl. specialize (Hload Hl). lia.
  - destruct (kinds !! i) as [[|]|] eqn:Hi; try done.
    destruct (count_kind_delete _ _ _ Hi) as [_ Hd]. cbn in Hd.
    unfold in_flight_inv. rewrite Hd. by destruct r.
  - destruct (kinds !! i) as [[|]|] eqn:Hi; try done.
    destruct (count_kind_delete _ _ _ Hi) as [Hd1 Hd2]. cbn in Hd1, Hd2.
    unfold in_flight_inv. rewrite Hd2.
    destruct (saving st); [|lia].
    destruct r; cbn; (split; [lia | done]).
Qed.

Lemma in_flight_reachable storage evs :
  in_flight_inv (observe (steps (mount storage) evs)).
Proof.
  rewrite steps_closed_form.
  induction evs as [|ev evs IH] using rev_ind; [by split |].
  rewrite foldl_snoc. by apply in_flight_next.
Qed.

End InFlight.

(** * More of the component *)

Section Reachable.

Implicit Types (st : AppState) (kinds : list bool) (ev : Event).

Lemma search_sends_request st :
  search_sends st = true →
  ¬ blank (query st) ∧ isWellFormed (profile st) = true ∧
  ∃ segment, encodeURIComponent (query st) = Normal segment.
Proof.
  unfold search_sends, encodable. intros [Hb [Hwf Hp]%andb_prop]%andb_prop.
  apply negb_true_iff, not_str_trim_false in Hb.
  split; [done |]. split; [done |]. by apply encode_defined.
Qed.

Lemma steps_snoc w evs ev : steps w (evs ++ [ev]) = step (steps w evs) ev.
Proof. unfold steps. by rewrite foldl_snoc. Qed.

Lemma observe_ui w : (observe w).1.1 = ui (env w).
Proof. done. Qed.

(** The state variables after an event, in a world reached from the first
    render. *)
Lemma reachable_next_ui storage evs ev :
  let w := steps (mount storage) evs in
  ui (env (step w ev)) = next_ui (ui (env w)) (is_get <$> pending w) ev.
Proof.
  intros w. rewrite <- (observe_ui (step w ev)).
  rewrite step_closed_form by apply reachable. done.
Qed.

Lemma error_next st kinds ev :
  error st ∈ error_texts → error (next_ui st kinds ev) ∈ error_texts.
Proof.
  intros Hst.
  assert (H0 : lit "" ∈ error_texts) by (by left).
  assert (H1 : lit "Failed to fetch articles. Please try again." ∈ error_texts)
    by (right; by left).
  assert (H2 : lit "Failed to save articles. Please try again." ∈ error_texts)
    by (right; right; by left).
  assert (Hsearch : error (search_started st) ∈ error_texts).
  { unfold search_started. by repeat case_match. }
  destruct ev; cbn [next_ui]; repeat case_match; try done; by destruct r.
Qed.

Lemma enter_is_enter : jsstring_eqb (lit "Enter") (lit "Enter") = true.
Proof. by apply bool_decide_eq_true. Qed.

End Reachable.

(** X8. In every state the component can reach, the requests on their way
    match the two busy flags: at most one save request is pending, and one
    is pending exactly while [saving] is set (the Save button is disabled
    for that time); and while [loading] is set (spinner shown, Search
    button disabled) at least one search request is pending. *)
Theorem busy_flags_match_pending_requests (storage : gmap jsstring jsstring)
    (evs : list Event) :
  let w := steps (mount storage) evs in
  (posts_pending w ≤ 1)%nat ∧
  (saving (ui (env w)) = true ↔ posts_pending w = 1%nat) ∧
  (loading (ui (env w)) = true → 1 ≤ gets_pending w)%nat.
Proof.
  intros w. destruct (in_flight_reachable storage evs) as [Hsave Hload].
  fold w in Hsave, Hload. unfold posts_pending, gets_pending.
  rewrite Hsave. destruct (saving (ui (env w))); repeat split; try done; lia.
Qed.

(** X9. The Search button is dead while a search is loading, the Enter key
    is not: in a reachable state with [loading] set, a query that is not
    blank and a query and a profile that can both be encoded, a click on
    Search changes nothing at all, and Enter in the query field sends one
    more GET, so that one more search request is pending than before. *)
Theorem enter_key_searches_while_loading (storage : gmap jsstring jsstring)
    (evs : list Event) :
  let w := steps (mount storage) evs in
  loading (ui (env w)) = true → search_sends (ui (env w)) = true →
  step w ClickSearch = w ∧
  gets_pending (step w (KeyPressQuery (lit "Enter"))) = S (gets_pending w) ∧
  (2 ≤ gets_pending (step w (KeyPressQuery (lit "Enter"))))%nat ∧
  ∃ url params,
    requests (emitted w (KeyPressQuery (lit "Enter"))) = [HttpGet url params].
Proof.
  intros w Hl Hs.
  assert (Hstep : step w ClickSearch = w) by (cbn; by rewrite Hl).
  assert (Hk : gets_pending (step w (KeyPressQuery (lit "Enter"))) =
               S (gets_pending w)).
  { unfold gets_pending.
    change (is_get <$> pending (step w (KeyPressQuery (lit "Enter"))))
      with (observe (step w (KeyPressQuery (lit "Enter")))).1.2.
    rewrite step_closed_form by apply reachable.
    unfold observe. cbn [next next_kinds fst snd].
    rewrite enter_is_enter, Hs. cbn [andb].
    rewrite count_kind_app. cbn. lia. }
  destruct (in_flight_reachable storage evs) as [_ Hload].
  specialize (Hload Hl). fold w in Hload.
  split; [done |]. split; [done |]. split.
  { rewrite Hk. unfold gets_pending. lia. }
  destruct (search_sends_request _ Hs) as (Hb & Hp & segment & Hseg).
  unfold emitted. cbn [step handler]. rewrite enter_is_enter.
  rewrite run_log, drop_app_length.
  destruct (exec_handleSearch_request (ui (env w)) (env w) segment Hb Hseg Hp)
    as (k & -> & _).
  by eexists _, _.
Qed.

Lemma enter_key_searches_while_loading_witness :
  let w := steps (mount ∅) [ChangeQuery (lit "x"); ClickSearch] in
  step w ClickSearch = w ∧
  gets_pending (step w (KeyPressQuery (lit "Enter"))) = 2%nat.
Proof.
  cbv zeta.
  destruct (enter_key_searches_while_loading ∅
              [ChangeQuery (lit "x"); ClickSearch]) as (Hc & Hk & _);
    [reflexivity | reflexivity |].
  split; [exact Hc |]. rewrite Hk. reflexivity.
Defined.

(** X26. A search that cannot be written down sends nothing. In a
    reachable state whose query is not blank, when the query or the profile
    holds a lone surrogate, starting a search (Enter in the query field, or
    the Search button while it is enabled) makes no request and leaves no
    handler waiting: the URIError is logged, [error] is the fetch message
    and [loading] is cleared, also when an earlier search is still on its
    way. Nothing else of the state changes. *)
Theorem unencodable_search_ends_in_catch (storage : gmap jsstring jsstring)
    (evs : list Event) (ev : Event) :
  let w := steps (mount storage) evs in
  let st := ui (env w) in
  ¬ blank (query st) → encodable st = false →
  ev = KeyPressQuery (lit "Enter") ∨ (ev = ClickSearch ∧ loading st = false) →
  requests (emitted w ev) = [] ∧
  ConsoleError URIError ∈ emitted w ev ∧
  pending (step w ev) = pending w ∧
  ui (env (step w ev)) =
    setLoading_ false
      (setError_ (lit "Failed to fetch articles. Please try again.") st).
Proof.
  intros w st Hb Hwf Hev.
  assert (Hstep : step w ev = run (handleSearch st) w (pending w)).
  { destruct Hev as [-> | [-> Hl]]; cbn [step handler]; fold st.
    - by rewrite enter_is_enter.
    - by rewrite Hl. }
  pose proof (exec_handleSearch_malformed st (env w) Hb Hwf) as Hexec.
  rewrite (emitted_run _ _ _ _ Hstep), Hstep, run_pending, run_env, Hexec.
  repeat split; try done. by left.
Qed.

Lemma unencodable_search_ends_in_catch_witness :
  let w := steps (mount ∅)
             [ClickEditProfile; ChangeProfile [55357%N]; ChangeQuery (lit "x")] in
  requests (emitted w ClickSearch) = [] ∧
  error (ui (env (step w ClickSearch))) =
    lit "Failed to fetch articles. Please try again.".
Proof.
  cbv zeta.
  destruct (unencodable_search_ends_in_catch ∅
              [ClickEditProfile; ChangeProfile [55357%N]; ChangeQuery (lit "x")]
              ClickSearch) as (Hreq & _ & _ & Hui).
  - intros H. apply not_str_trim in H. by vm_compute in H.
  - reflexivity.
  - right. split; reflexivity.
  - split; [exact Hreq |]. by rewrite Hui.
Defined.

(** X10. In every state the component can reach, the [error] state variable
    is empty or one of the two fixed messages, so the error line of the
    page is absent or shows one of these two texts. *)
Theorem error_line_is_one_of_two_messages (storage : gmap jsstring jsstring)
    (evs : list Event) :
  let st := ui (env (steps (mount storage) evs)) in
  error st ∈ error_texts ∧
  error_text (render st) ∈
    [None;
     Some (lit "Failed to fetch articles. Please try again.");
     Some (lit "Failed to save articles. Please try again.")].
Proof.
  intros st.
  assert (Herr : error st ∈ error_texts).
  { subst st. induction evs as [|ev evs IH] using rev_ind.
    - by left.
    - rewrite steps_snoc, (reachable_next_ui storage evs ev).
      by apply error_next. }
  split; [done |]. cbn [render error_text]. unfold and_then, error_texts in *.
  apply elem_of_cons in Herr as [-> | Herr]; [by left |].
  apply elem_of_cons in Herr as [-> | Herr]; [right; by left |].
  apply list_elem_of_singleton in Herr as ->. right; right; by left.
Qed.

(** * More on [truncateText] *)

Section Truncate.

Implicit Types (s t w : jsstring) (ws : list jsstring) (sep : jschar).

Lemma truncateText_short text lines :
  0 ≤ lines → (length (split 32%N text) ≤ Z.to_nat (lines * 10))%nat →
  truncateText text lines = text.
Proof.
  intros Hl Hn. unfold truncateText. rewrite slice_0 by lia.
  destruct (Z.ltb_spec (lines * 10) (Z.of_nat (length (split 32%N text))));
    [lia |].
  rewrite take_ge by done. rewrite app_nil_r. apply (join_split 32%N).
Qed.

Lemma truncateText_long text lines :
  0 ≤ lines → (Z.to_nat (lines * 10) < length (split 32%N text))%nat →
  truncateText text lines =
    join (lit " ") (take (Z.to_nat (lines * 10)) (split 32%N text)) ++ lit "...".
Proof.
  intros Hl Hn. unfold truncateText. rewrite slice_0 by lia.
  by destruct (Z.ltb_spec (lines * 10) (Z.of_nat (length (split 32%N text))));
    [|lia].
Qed.

(** Joining the first words gives a prefix of the joined words. *)
Lemma join_take_prefix sep ws n :
  join [sep] (take n ws) `prefix_of` join [sep] ws.
Proof.
  revert n. induction ws as [|w ws IH]; intros n.
  - rewrite take_nil. done.
  - destruct n as [|n]; [apply prefix_nil |].
    cbn [take]. destruct ws as [|w' ws'].
    + by rewrite take_nil.
    + specialize (IH n). destruct n as [|n].
      * cbn. by apply prefix_app_r.
      * change (join [sep] (w :: take (S n) (w' :: ws')))
          with (w ++ [sep] ++ join [sep] (take (S n) (w' :: ws'))).
        change (join [sep] (w :: w' :: ws'))
          with (w ++ [sep] ++ join [sep] (w' :: ws')).
        by do 2 apply prefix_app.
Qed.

(** Text without a separator, added at the end, adds no word. *)
Lemma length_split_app sep s t :
  sep ∉ t → length (split sep (s ++ t)) = length (split sep s).
Proof.
  intros Ht. induction s as [|c r IH]; cbn [app split].
  - by rewrite split_word.
  - destruct (c =? sep)%N; cbn [length]; [by rewrite IH |].
    destruct (split_cons sep (r ++ t)) as (w1 & ws1 & H1).
    destruct (split_cons sep r) as (w2 & ws2 & H2).
    rewrite H1, H2 in *. done.
Qed.

Lemma dots_no_space : 32%N ∉ lit "...".
Proof.
  intros H. change (lit "...") with [46%N; 46%N; 46%N] in H.
  repeat (apply elem_of_cons in H as [H | H]; [done |]).
  by apply elem_of_nil in H.
Qed.

Lemma truncateText_words text lines :
  0 ≤ lines →
  (length (split 32%N (truncateText text lines))
     ≤ Nat.max 1 (Z.to_nat (lines * 10)))%nat.
Proof.
  intros Hl. set (n := Z.to_nat (lines * 10)).
  destruct (Nat.lt_ge_cases n (length (split 32%N text))) as [Hlong | Hshort].
  - rewrite truncateText_long by done. fold n.
    rewrite length_split_app by apply dots_no_space.
    destruct n as [|n]; [done |].
    rewrite (split_join 32%N).
    + rewrite length_take. lia.
    + destruct (split_cons 32%N text) as (w & ws & ->). done.
    + apply Forall_take, split_words.
  - rewrite truncateText_short by done. lia.
Qed.

Lemma truncateText_shape text lines :
  0 ≤ lines →
  (truncateText text lines = text ∨
   ∃ p, p `prefix_of` text ∧ truncateText text lines = p ++ lit "...") ∧
  (length (truncateText text lines) ≤ length text + 3)%nat.
Proof.
  intros Hl.
  destruct (Nat.lt_ge_cases (Z.to_nat (lines * 10)) (length (split 32%N text)))
    as [Hlong | Hshort].
  - rewrite truncateText_long by done.
    pose proof (join_take_prefix 32%N (split 32%N text) (Z.to_nat (lines * 10)))
      as Hp.
    rewrite join_split in Hp. split.
    + right. by eexists.
    + apply prefix_length in Hp. rewrite length_app.
      by apply Nat.add_le_mono.
  - rewrite truncateText_short by done. split; [by left | lia].
Qed.

End Truncate.

(** X11. For a count of lines that is not negative, [truncateText] only
    cuts: its result is [text] itself, or a prefix of [text] followed by
    ["..."]; so it is never more than three code units longer than
    [text]. *)
Theorem truncateText_is_prefix_and_dots (text : jsstring) (lines : Z) :
  0 ≤ lines →
  (truncateText text lines = text ∨
   ∃ p, p `prefix_of` text ∧ truncateText text lines = p ++ lit "...") ∧
  (length (truncateText text lines) ≤ length text + 3)%nat.
Proof. apply truncateText_shape. Qed.

Lemma truncateText_is_prefix_and_dots_witness :
  (length (truncateText (lit "a b c d e f g h i j k l") 1) ≤ 23 + 3)%nat.
Proof.
  refine (proj2 (truncateText_is_prefix_and_dots (lit "a b c d e f g h i j k l") 1 _)).
  lia.
Defined.

(** X12. For a count of lines that is not negative, the result of
    [truncateText] has at most [lines * 10] words (one word when
    [lines] is 0: the dots), and truncating it again changes nothing. *)
Theorem truncateText_bounds_words_and_is_idempotent (text : jsstring) (lines : Z) :
  0 ≤ lines →
  (length (split 32%N (truncateText text lines))
     ≤ Nat.max 1 (Z.to_nat (lines * 10)))%nat ∧
  truncateText (truncateText text lines) lines = truncateText text lines.
Proof.
  intros Hl. pose proof (truncateText_words text lines Hl) as Hw.
  split; [done |].
  destruct (Z.to_nat (lines * 10)) as [|n] eqn:Hn.
  - assert (Hzero : ∀ t, truncateText t lines = lit "...").
    { intros t. rewrite truncateText_long; [by rewrite Hn | done |].
      rewrite Hn. destruct (split_cons 32%N t) as (w & ws & ->). cbn. lia. }
    by rewrite !Hzero.
  - apply truncateText_short; [done |]. rewrite Hn. lia.
Qed.

Lemma truncateText_bounds_words_and_is_idempotent_witness :
  truncateText (truncateText (lit "a b c d e f g h i j k l") 1) 1 =
  truncateText (lit "a b c d e f g h i j k l") 1.
Proof.
  refine (proj2 (truncateText_bounds_words_and_is_idempotent
                   (lit "a b c d e f g h i j k l") 1 _)).
  lia.
Defined.

(** * Cards *)

(** X13. Which card is open changes by a click on a card and by nothing
    else: a click on card [index] opens it, or closes it if it was the
    open one; every other event, a dismissal and a fulfilled search
    included, leaves [expandedCard] as it is. *)
Theorem open_card_changes_by_card_click_only (storage : gmap jsstring jsstring)
    (evs : list Event) (ev : Event) :
  let w := steps (mount storage) evs in
  let st := ui (env w) in
  expandedCard (ui (env (step w ev))) =
    match ev with
    | ClickCard index =>
        if bool_decide (index < length (articles st))%nat
        then if bool_decide (expandedCard st = Some index) then None else Some index
        else expandedCard st
    | _ => expandedCard st
    end.
Proof.
  intros w st. subst st. unfold w. rewrite reachable_next_ui. fold w.
  destruct ev; cbn [next_ui]; try done.
  - by destruct (showProfileEditor (ui (env w))).
  - by destruct (showProfileEditor (ui (env w))).
  - destruct (jsstring_eqb key (lit "Enter")); [|done].
    unfold search_started. by repeat case_match.
  - destruct (loading (ui (env w))); [done |].
    unfold search_started. by repeat case_match.
  - case_bool_decide; [|done]. cbn.
    destruct (expandedCard (ui (env w))) as [e|]; cbn; [|done].
    destruct (Nat.eqb_spec e index) as [-> | Hne].
    + by rewrite bool_decide_eq_true_2.
    + rewrite bool_decide_eq_false_2; [done | congruence].
  - by case_bool_decide.
  - by destruct (bool_decide _ && negb _).
  - repeat case_match; try done. by destruct r.
  - repeat case_match; try done. by destruct r.
Qed.

(** X14. The open card is kept by position, not by article. When card
    [e] is open and a card is dismissed, card [e] is still the open one
    afterwards; if the dismissed card stood at or before [e], the article
    shown open is now the one that followed (none, if there was no
    next). *)
Theorem dismissal_keeps_open_position (storage : gmap jsstring jsstring)
    (evs : list Event) (index e : nat) :
  let w := steps (mount storage) evs in
  let st := ui (env w) in
  let st' := ui (env (step w (ClickDismiss index))) in
  expandedCard st = Some e →
  expandedCard st' = Some e ∧
  articles st' !! e = articles st !! (if decide (e < index)%nat then e else S e) ∧
  ∀ cards button card,
    results (render st') = Some (cards, button) → cards !! e = Some card →
    details_in card = true ∧
    ∃ a, articles st !! (if decide (e < index)%nat then e else S e) = Some a ∧
         card_title card = title a ∧ details card = (description a, lit "Reasoning: " ++ reasoning a).
Proof.
  intros w st st' He. subst st st'.
  assert (Hst : ui (env (step w (ClickDismiss index))) =
                setArticles_ (delete index (articles (ui (env w)))) (ui (env w))).
  { unfold w. rewrite reachable_next_ui. fold w. cbn [next_ui].
    case_bool_decide; [done |].
    rewrite delete_take_drop, take_ge, drop_ge by lia. rewrite app_nil_r.
    by destruct (ui (env w)). }
  rewrite Hst. cbn [expandedCard articles setArticles_].
  split; [done |]. split; [apply list_lookup_delete |].
  intros cards button card Hr Hc. cbn [render results articles expandedCard
    setArticles_] in Hr. rewrite He in Hr.
  case_bool_decide; [|done]. injection Hr as <- <-.
  rewrite list_lookup_imap in Hc.
  rewrite list_lookup_delete in Hc.
  destruct (articles (ui (env w)) !! (if decide (e < index)%nat then e else S e))
    as [a|]; [|done].
  cbn in Hc. injection Hc as <-. cbn. rewrite Nat.eqb_refl.
  split; [done |]. by exists a.
Qed.

Lemma dismissal_keeps_open_position_witness :
  let a1 := {| title := lit "one"; description := lit ""; link := lit "";
               published := lit ""; score := 1%float; reasoning := lit "" |} in
  let a2 := {| title := lit "two"; description := lit ""; link := lit "";
               published := lit ""; score := 2%float; reasoning := lit "" |} in
  let response :=
    {| data := {| SearchResponse.articles := [a1; a2];
                  SearchResponse.llm_reasoning := lit "" |};
       status := 200 |} in
  let evs := [ChangeQuery (lit "x"); ClickSearch; SettleGet 0 (Resolve response);
              ClickCard 0] in
  let w := steps (mount ∅) evs in
  articles (ui (env (step w (ClickDismiss 0)))) !! 0%nat = Some a2 ∧
  expandedCard (ui (env (step w (ClickDismiss 0)))) = Some 0%nat.
Proof.
  intros a1 a2 response evs w.
  destruct (dismissal_keeps_open_position ∅ evs 0 0) as (He & Ha & _);
    [reflexivity |].
  split; [|exact He]. fold w in Ha. rewrite Ha. reflexivity.
Defined.

(** X15. What the list of cards shows, in any state. There is a list (and
    a Save button) exactly when there are articles, with one card per
    article, numbered from 1 in list order. A card shows its details when
    its position is [expandedCard] and its summary otherwise, never both,
    so at most one card shows details. The summary is the description
    itself or a prefix of it followed by ["..."], and has at most 50
    words. *)
Theorem cards_show_details_or_summary (st : AppState) :
  (results (render st) = None ↔ articles st = []) ∧
  ∀ cards button,
    results (render st) = Some (cards, button) →
    length cards = length (articles st) ∧
    (∀ i card,
       cards !! i = Some card →
       ∃ a, articles st !! i = Some a ∧
            caption card = S i ∧ card_title card = title a ∧
            (details_in card = true ↔ expandedCard st = Some i) ∧
            summary_in card = negb (details_in card) ∧
            (summary card = description a ∨
             ∃ p, p `prefix_of` description a ∧ summary card = p ++ lit "...") ∧
            (length (split 32%N (summary card)) ≤ 50)%nat) ∧
    (∀ i j ci cj,
       cards !! i = Some ci → cards !! j = Some cj →
       details_in ci = true → details_in cj = true → i = j).
Proof.
  assert (Hopen : ∀ i, index_eqb (expandedCard st) i = true ↔ expandedCard st = Some i).
  { intros i. destruct (expandedCard st) as [e|]; cbn; [|done].
    rewrite Nat.eqb_eq. split; congruence. }
  split.
  { cbn [render results]. case_bool_decide as Hlen.
    - split; [done |]. intros Ha. rewrite Ha in Hlen. cbn in Hlen. lia.
    - split; [|done]. intros _. destruct (articles st); [done | cbn in Hlen; lia]. }
  intros cards button Hr. cbn [render results] in Hr.
  case_bool_decide; [|done]. injection Hr as <- <-.
  split; [apply length_imap |].
  assert (Hcard : ∀ i card,
    imap (render_card (expandedCard st)) (articles st) !! i = Some card →
    ∃ a, articles st !! i = Some a ∧ card = render_card (expandedCard st) i a).
  { intros i card Hc. rewrite list_lookup_imap in Hc.
    destruct (articles st !! i) as [a|]; [|done].
    injection Hc as <-. by exists a. }
  split.
  - intros i card (a & Ha & ->)%Hcard. exists a. cbn.
    destruct (truncateText_shape (description a) 5) as [Hshape _]; [lia |].
    split; [done |]. split; [lia |]. split; [done |].
    split; [apply Hopen |]. split; [done |]. split; [done |].
    etrans; [apply truncateText_words; lia | done].
  - intros i j ci cj (a & _ & ->)%Hcard (b & _ & ->)%Hcard. cbn.
    intros Hi%Hopen Hj%Hopen. congruence.
Qed.

(** * The stored profile *)

(** X16. A saved profile is the one the next page load starts with: when
    the editor is open, Save Profile stores the profile of the state under
    [userProfile] and closes the editor, and the component mounted on that
    storage has the same profile. *)
Theorem saved_profile_survives_reload (storage : gmap jsstring jsstring)
    (evs : list Event) :
  let w := steps (mount storage) evs in
  let w' := step w ClickSaveProfile in
  showProfileEditor (ui (env w)) = true →
  localStorage (env w') =
    <[lit "userProfile" := profile (ui (env w))]> (localStorage (env w)) ∧
  showProfileEditor (ui (env w')) = false ∧
  profile (ui (env w')) = profile (ui (env w)) ∧
  profile (ui (env (mount (localStorage (env w'))))) = profile (ui (env w)).
Proof.
  intros w w' Hshow. subst w'. cbn [step handler]. rewrite Hshow.
  cbn. rewrite lookup_insert_eq. repeat split.
  by destruct (profile (ui (env w))).
Qed.

Lemma saved_profile_survives_reload_witness :
  let w := steps (mount ∅) [ClickEditProfile; ChangeProfile (lit "ml")] in
  profile (ui (env (mount (localStorage (env (step w ClickSaveProfile)))))) =
  lit "ml".
Proof.
  cbv zeta.
  refine (proj2 (proj2 (proj2 (saved_profile_survives_reload ∅
    [ClickEditProfile; ChangeProfile (lit "ml")] _)))).
  reflexivity.
Defined.

(** X17. Nothing but the Save Profile button of the open editor writes
    the storage: every other event, typing in the editor included, leaves
    the whole storage as it is, so a page load after it starts with the
    same profile as a page load before it. *)
Theorem storage_written_by_save_profile_only (storage : gmap jsstring jsstring)
    (evs : list Event) (ev : Event) :
  let w := steps (mount storage) evs in
  localStorage (env (step w ev)) =
    match ev with
    | ClickSaveProfile =>
        if showProfileEditor (ui (env w))
        then <[lit "userProfile" := profile (ui (env w))]> (localStorage (env w))
        else localStorage (env w)
    | _ => localStorage (env w)
    end ∧
  (ev ≠ ClickSaveProfile →
   profile (ui (env (mount (localStorage (env (step w ev)))))) =
   profile (ui (env (mount (localStorage (env w)))))).
Proof.
  intros w.
  assert (Hst : localStorage (env (step w ev)) =
                next_storage (ui (env w)) (localStorage (env w)) ev).
  { change (localStorage (env (step w ev))) with (observe (step w ev)).2.
    rewrite step_closed_form by apply reachable. done. }
  rewrite Hst. split; [by destruct ev |].
  intros Hev. by destruct ev.
Qed.

(** * Replies *)

(** X18. A reply is applied when it arrives, whichever search it answers:
    when the pending request at position [i] is a search and it is
    fulfilled, the state takes that response's articles and reasoning text
    and [loading] is cleared, also when other searches are still pending
    (one search request fewer is pending than before). *)
Theorem fulfilled_search_applies_on_arrival (storage : gmap jsstring jsstring)
    (evs : list Event) (i : nat) (response : AxiosResponse SearchResponse.t) :
  let w := steps (mount storage) evs in
  let w' := step w (SettleGet i (Resolve response)) in
  (is_get <$> pending w) !! i = Some true →
  articles (ui (env w')) = SearchResponse.articles (data response) ∧
  llmReasoning (ui (env w')) = SearchResponse.llm_reasoning (data response) ∧
  loading (ui (env w')) = false ∧
  gets_pending w = S (gets_pending w').
Proof.
  intros w w' Hi. subst w'.
  assert (Hobs : observe (step w (SettleGet i (Resolve response))) =
    (search_settled (Resolve response) (ui (env w)),
     delete i (is_get <$> pending w), localStorage (env w))).
  { rewrite step_closed_form by apply reachable.
    unfold observe. cbn [next next_ui next_kinds next_storage]. by rewrite Hi. }
  pose proof (f_equal (λ o, o.1.1) Hobs) as Hui.
  pose proof (f_equal (λ o, o.1.2) Hobs) as Hk. cbn [fst snd] in Hui, Hk.
  change (ui (env (step w (SettleGet i (Resolve response)))) =
          search_settled (Resolve response) (ui (env w))) in Hui.
  change (is_get <$> pending (step w (SettleGet i (Resolve response))) =
          delete i (is_get <$> pending w)) in Hk.
  rewrite Hui. unfold gets_pending. rewrite Hk.
  repeat split. by destruct (count_kind_delete _ _ _ Hi) as [-> _].
Qed.

Lemma fulfilled_search_applies_on_arrival_witness :
  let a1 := {| title := lit "old"; description := lit ""; link := lit "";
               published := lit ""; score := 1%float; reasoning := lit "" |} in
  let a2 := {| title := lit "new"; description := lit ""; link := lit "";
               published := lit ""; score := 2%float; reasoning := lit "" |} in
  let reply a :=
    Resolve {| data := {| SearchResponse.articles := [a];
                          SearchResponse.llm_reasoning := lit "" |};
               status := 200 |} in
  let evs := [ChangeQuery (lit "old"); ClickSearch;
              ChangeQuery (lit "new"); KeyPressQuery (lit "Enter");
              SettleGet 1 (reply a2)] in
  let w := steps (mount ∅) evs in
  query (ui (env w)) = lit "new" ∧
  articles (ui (env (step w (SettleGet 0 (reply a1))))) = [a1].
Proof.
  intros a1 a2 reply evs w. split; [reflexivity |].
  refine (proj1 (fulfilled_search_applies_on_arrival ∅ evs 0 _ _)).
  reflexivity.
Defined.

(** * Numerals in the count fields *)

Section Numerals.

Implicit Types (d : Decimal.uint) (p acc : positive).

Lemma parse_digits_acc d acc :
  parse_digits 10 (uint_chars d) (Some (Zpos acc)) =
  Some (Zpos (Pos.of_uint_acc d acc)).
Proof.
  revert acc. induction d; intros acc; cbn [uint_chars Pos.of_uint_acc];
    [done | ..];
    cbn [parse_digits]; cbn; rewrite <- IHd; do 2 f_equal; lia.
Qed.

Lemma parse_digits_zero d :
  parse_digits 10 (uint_chars d) (Some 0) = Some (Z.of_N (Pos.of_uint d)).
Proof.
  induction d; cbn [uint_chars Pos.of_uint]; [done | ..];
    cbn [parse_digits]; cbn; first [exact IHd | apply parse_digits_acc].
Qed.

Lemma parse_digits_uint d :
  d ≠ Decimal.Nil →
  parse_digits 10 (uint_chars d) None = Some (Z.of_N (Pos.of_uint d)).
Proof.
  intros Hd. destruct d; [done | ..]; cbn [uint_chars Pos.of_uint];
    cbn [parse_digits]; cbn;
    first [apply parse_digits_zero | apply parse_digits_acc].
Qed.

Lemma parse_digits_pos p :
  parse_digits 10 (uint_chars (Pos.to_uint p)) None = Some (Zpos p).
Proof.
  rewrite parse_digits_uint by apply DecimalPos.Unsigned.to_uint_nonnil.
  by rewrite DecimalPos.Unsigned.of_to.
Qed.

(** A numeral starts with a digit: nothing is trimmed, there is no sign and
    no [0x]. *)
Lemma uint_chars_plain d :
  trimStart (uint_chars d) = uint_chars d ∧
  strip_sign (uint_chars d) = (1, uint_chars d) ∧
  strip_hex_prefix (uint_chars d) = (10, uint_chars d).
Proof.
  destruct d as [|d|d|d|d|d|d|d|d|d|d]; cbn; try done.
  by destruct d.
Qed.

Lemma parseInt_decimal (z : Z) : parseInt (decimal z) = Num z.
Proof.
  destruct z as [|p|p]; [done | |].
  - unfold parseInt, decimal.
    destruct (uint_chars_plain (Pos.to_uint p)) as (-> & -> & ->).
    by rewrite parse_digits_pos.
  - unfold parseInt, decimal. cbn [app lit].
    change (lit "-" ++ uint_chars (Pos.to_uint p))
      with (45%N :: uint_chars (Pos.to_uint p)).
    cbn [trimStart isWhiteSpace strip_sign]. cbn -[parse_digits strip_hex_prefix].
    destruct (uint_chars_plain (Pos.to_uint p)) as (_ & _ & ->).
    by rewrite parse_digits_pos.
Qed.

End Numerals.

(** X19. Typing the decimal numeral of an integer [z] into either count
    field stores [z] when [z] is at least 1 and stores 1 otherwise (zero
    and negative numbers are raised to 1; nothing is lowered). This is for
    [z] of a magnitude up to 2^53, where every integer is a double and
    [parseInt] reads the numeral exactly. *)
Theorem typed_numeral_is_stored_raised_to_one (storage : gmap jsstring jsstring)
    (evs : list Event) (z : Z) :
  exact_double z →
  let w := steps (mount storage) evs in
  parseInt (decimal z) = Num z ∧
  maxSearchResults (ui (env (step w (ChangeMaxSearchResults (decimal z))))) =
    Num (Z.max 1 z) ∧
  displayResults (ui (env (step w (ChangeDisplayResults (decimal z))))) =
    Num (Z.max 1 z).
Proof.
  intros _ w. split; [apply parseInt_decimal |].
  cbn [step handler]. rewrite !run_env.
  cbn -[Math_max or_else parseInt decimal]. rewrite parseInt_decimal.
  destruct z as [|p|p]; cbn; (split; f_equal; lia).
Qed.

Lemma typed_numeral_is_stored_raised_to_one_witness :
  parseInt (lit "-7") = Num (-7) ∧
  maxSearchResults (ui (env (step (steps (mount ∅) [])
    (ChangeMaxSearchResults (lit "-7"))))) = Num 1.
Proof.
  assert (Hz : exact_double (-7)) by (unfold exact_double; simpl; lia).
  destruct (typed_numeral_is_stored_raised_to_one ∅ [] (-7) Hz) as (Hp & Hm & _).
  split; [exact Hp | exact Hm].
Defined.

(** * The encoded query determines the query *)

Section EncodeInjective.

Implicit Types (s t x : jsstring) (c cp o : N).

(** Bits that do not overlap add up. *)
Lemma lor_disjoint (a b k : N) :
  (b < 2 ^ k → N.lor (a * 2 ^ k) b = a * 2 ^ k + b)%N.
Proof.
  intros Hb.
  assert (Hland : N.land (a * 2 ^ k) b = 0%N).
  { apply N.bits_inj. intros n. rewrite N.land_spec, N.bits_0.
    destruct (N.lt_ge_cases n k) as [Hn | Hn].
    - by rewrite N.mul_pow2_bits_low.
    - destruct (N.eq_dec b 0%N) as [-> | Hb0];
        [by rewrite N.bits_0, andb_false_r |].
      rewrite (N.bits_above_log2 b n), andb_false_r; [done |].
      apply N.lt_le_trans with k; [|done].
      apply N.log2_lt_pow2; [lia | done]. }
  rewrite N.add_nocarry_lxor by done. symmetry. by apply N.lxor_lor.
Qed.

Lemma land_63 (v : N) : N.land v 63 = (v mod 64)%N.
Proof. change 63%N with (N.ones 6). by rewrite N.land_ones. Qed.

(** [utf8] in arithmetic. *)
Lemma utf8_arith cp :
  (cp < 2097152)%N →
  utf8 cp =
    (if cp <? 128 then [cp]
     else if cp <? 2048 then [192 + cp / 64; 128 + cp mod 64]
     else if cp <? 65536 then
       [224 + cp / 64 / 64; 128 + (cp / 64) mod 64; 128 + cp mod 64]
     else
       [240 + cp / 64 / 64 / 64; 128 + (cp / 64 / 64) mod 64;
        128 + (cp / 64) mod 64; 128 + cp mod 64])%N.
Proof.
  intros Hcp. unfold utf8.
  assert (Hcont : ∀ v : N, N.lor 128 (N.land v 63) = (128 + v mod 64)%N).
  { intros v. rewrite land_63. apply (lor_disjoint 2 _ 6).
    apply N.mod_lt. lia. }
  assert (H6 : N.shiftr cp 6 = (cp / 64)%N) by apply N.shiftr_div_pow2.
  assert (H12 : N.shiftr cp 12 = (cp / 64 / 64)%N).
  { rewrite N.shiftr_div_pow2, N.Div0.div_div. done. }
  assert (H18 : N.shiftr cp 18 = (cp / 64 / 64 / 64)%N).
  { rewrite N.shiftr_div_pow2, !N.Div0.div_div. done. }
  rewrite !Hcont, H6, H12, H18.
  destruct (N.ltb_spec cp 128); [done |].
  destruct (N.ltb_spec cp 2048).
  { f_equal. apply (lor_disjoint 3 _ 6).
    apply N.Div0.div_lt_upper_bound. lia. }
  destruct (N.ltb_spec cp 65536).
  { f_equal. apply (lor_disjoint 7 _ 5).
    rewrite N.Div0.div_div. apply N.Div0.div_lt_upper_bound. lia. }
  f_equal. apply (lor_disjoint 15 _ 4).
  rewrite !N.Div0.div_div. apply N.Div0.div_lt_upper_bound. lia.
Qed.

(** The octets of a code point tell their number by the first of them,
    and tell the code point. *)
Lemma utf8_reads_back cp :
  (cp < 2097152)%N →
  ∃ o os,
    utf8 cp = o :: os ∧
    length (o :: os) = utf8_size o ∧
    utf8_value (o :: os) = cp.
Proof.
  intros Hcp. rewrite utf8_arith by done.
  pose proof (N.div_mod cp 64) as E1.
  pose proof (N.mod_lt cp 64) as R1.
  pose proof (N.div_mod (cp / 64) 64) as E2.
  pose proof (N.mod_lt (cp / 64) 64) as R2.
  pose proof (N.div_mod (cp / 64 / 64) 64) as E3.
  pose proof (N.mod_lt (cp / 64 / 64) 64) as R3.
  set (q1 := (cp / 64)%N) in *. set (r1 := (cp mod 64)%N) in *.
  set (q2 := (q1 / 64)%N) in *. set (r2 := (q1 mod 64)%N) in *.
  set (q3 := (q2 / 64)%N) in *. set (r3 := (q2 mod 64)%N) in *.
  unfold utf8_size, utf8_value.
  destruct (N.ltb_spec cp 128) as [H1 | H1].
  { eexists _, _. split; [done |]. split; [|done].
    by destruct (N.ltb_spec cp 128); [|lia]. }
  destruct (N.ltb_spec cp 2048) as [H2 | H2].
  { eexists _, _. split; [done |]. split.
    - destruct (N.ltb_spec (192 + q1) 128); [lia |].
      destruct (N.ltb_spec (192 + q1) 224); [done | lia].
    - lia. }
  destruct (N.ltb_spec cp 65536) as [H3 | H3].
  { eexists _, _. split; [done |]. split.
    - destruct (N.ltb_spec (224 + q2) 128); [lia |].
      destruct (N.ltb_spec (224 + q2) 224); [lia |].
      destruct (N.ltb_spec (224 + q2) 240); [done | lia].
    - lia. }
  eexists _, _. split; [done |]. split.
  - destruct (N.ltb_spec (240 + q3) 128); [lia |].
    destruct (N.ltb_spec (240 + q3) 224); [lia |].
    destruct (N.ltb_spec (240 + q3) 240); [lia | done].
  - lia.
Qed.

Lemma hexDigit_inj (a b : N) :
  (a < 16 → b < 16 → hexDigit a = hexDigit b → a = b)%N.
Proof.
  unfold hexDigit. intros Ha Hb.
  destruct (N.ltb_spec a 10), (N.ltb_spec b 10); lia.
Qed.

Lemma percent_inj o o' x x' :
  (o < 256)%N → (o' < 256)%N →
  percent o ++ x = percent o' ++ x' → o = o' ∧ x = x'.
Proof.
  intros Ho Ho'. unfold percent. cbn [app]. intros [= Hhi Hlo Hx].
  split; [|done].
  apply hexDigit_inj in Hhi;
    [|apply N.Div0.div_lt_upper_bound; lia | apply N.Div0.div_lt_upper_bound; lia].
  apply hexDigit_inj in Hlo; [|apply N.mod_lt; lia | apply N.mod_lt; lia].
  rewrite (N.div_mod o 16), (N.div_mod o' 16) by lia. congruence.
Qed.

Lemma percents_inj (os os' : list N) x x' :
  Forall (λ o, o < 256)%N os → Forall (λ o, o < 256)%N os' →
  length os = length os' →
  concat (map percent os) ++ x = concat (map percent os') ++ x' →
  os = os' ∧ x = x'.
Proof.
  intros Hos. revert os'. induction Hos as [|o os Ho _ IH];
    intros [|o' os'] Hos' Hlen; try done.
  apply Forall_cons in Hos' as [Ho' Hos'].
  cbn [map concat]. rewrite <- !app_assoc. intros [-> Hrest]%percent_inj; try done.
  apply IH in Hrest as [-> ->]; [done | done |].
  cbn in Hlen. lia.
Qed.

Lemma escape_inj cp cp' x x' :
  (cp < 2097152)%N → (cp' < 2097152)%N →
  escape cp ++ x = escape cp' ++ x' → cp = cp' ∧ x = x'.
Proof.
  intros Hcp Hcp'. unfold escape.
  pose proof (utf8_octets cp Hcp) as Hb.
  pose proof (utf8_octets cp' Hcp') as Hb'.
  destruct (utf8_reads_back cp Hcp) as (o & os & Hu & Hlen & Hval).
  destruct (utf8_reads_back cp' Hcp') as (o' & os' & Hu' & Hlen' & Hval').
  rewrite Hu, Hu' in *. intros Heq.
  assert (o = o') as <-.
  { cbn [map concat] in Heq. rewrite <- !app_assoc in Heq.
    apply percent_inj in Heq as [? _]; [done | |].
    - by apply Forall_cons in Hb as [? _].
    - by apply Forall_cons in Hb' as [? _]. }
  apply percents_inj in Heq as [Hos ->]; [| done | done | congruence].
  split; [|done]. rewrite <- Hval, <- Hval'. by rewrite Hos.
Qed.

Lemma pair_inj (c d c' d' : jschar) :
  isLeadingSurrogate c = true → isTrailingSurrogate d = true →
  isLeadingSurrogate c' = true → isTrailingSurrogate d' = true →
  UTF16SurrogatePairToCodePoint c d = UTF16SurrogatePairToCodePoint c' d' →
  c = c' ∧ d = d'.
Proof.
  unfold isLeadingSurrogate, isTrailingSurrogate, UTF16SurrogatePairToCodePoint.
  intros [H1 H2]%andb_prop [H3 H4]%andb_prop [H5 H6]%andb_prop [H7 H8]%andb_prop.
  apply N.leb_le in H1, H2, H3, H4, H5, H6, H7, H8. lia.
Qed.

Lemma encode_injective_upto (n : nat) s s' t :
  (length s ≤ n)%nat →
  Forall (λ c, c < 65536)%N s → Forall (λ c, c < 65536)%N s' →
  encodeURIComponent s = Normal t → encodeURIComponent s' = Normal t →
  s = s'.
Proof.
  revert s s' t. induction n as [|n IH]; intros s s' t Hn Hs Hs' He He'.
  { destruct s; [|cbn in Hn; lia]. injection He as <-.
    destruct s' as [|c' r']; [done |]. by apply encode_nonempty in He'. }
  destruct s as [|c r].
  { injection He as <-. destruct s' as [|c' r']; [done |].
    by apply encode_nonempty in He'. }
  destruct s' as [|c' r'].
  { injection He' as <-. by apply encode_nonempty in He. }
  apply Forall_cons in Hs as [Hc Hr]. apply Forall_cons in Hs' as [Hc' Hr'].
  cbn in Hn.
  apply encode_cons in He as
    [(Hu & t1 & -> & He) | [(Hu & Htr & Hle & t1 & -> & He)
    | (Hu & Hle & d & r2 & t1 & -> & Hd & -> & He)]];
  apply encode_cons in He' as
    [(Hu' & t1' & Ht & He') | [(Hu' & Htr' & Hle' & t1' & Ht & He')
    | (Hu' & Hle' & d' & r2' & t1' & -> & Hd' & Ht & He')]].
  - injection Ht as <- <-. f_equal. apply (IH r r' t1); try done. lia.
  - destruct (escape_head c') as [? Hh]. rewrite Hh in Ht.
    injection Ht as -> _. done.
  - destruct (escape_head (UTF16SurrogatePairToCodePoint c' d')) as [? Hh].
    rewrite Hh in Ht. injection Ht as -> _. done.
  - destruct (escape_head c) as [? Hh]. rewrite Hh in Ht.
    injection Ht as <- _. done.
  - apply escape_inj in Ht as [<- <-]; try lia.
    f_equal. apply (IH r r' t1); try done. lia.
  - apply escape_inj in Ht as [Hcp _]; try lia;
      [|by apply pair_code_point].
    pose proof (pair_above_units c' d' Hle' Hd'). lia.
  - destruct (escape_head (UTF16SurrogatePairToCodePoint c d)) as [? Hh].
    rewrite Hh in Ht. injection Ht as <- _. done.
  - apply escape_inj in Ht as [Hcp _]; try lia;
      [|by apply pair_code_point].
    pose proof (pair_above_units c d Hle Hd). lia.
  - apply escape_inj in Ht as [Hcp <-];
      [| by apply pair_code_point | by apply pair_code_point].
    apply pair_inj in Hcp as [<- <-]; try done.
    do 2 f_equal. apply Forall_cons in Hr as [_ Hr].
    apply Forall_cons in Hr' as [_ Hr'].
    apply (IH r2 r2' t1); try done. cbn in Hn. lia.
Qed.

End EncodeInjective.

(** The code points of a string of 16-bit code units are below 2^21. *)
Lemma code_points_bound (n : nat) (s : jsstring) :
  (length s ≤ n)%nat → Forall (λ c, c < 65536)%N s →
  Forall (λ cp, cp < 2097152)%N (code_points s).
Proof.
  revert s. induction n as [|n IH]; intros s Hn Hs.
  { destruct s; [constructor | cbn in Hn; lia]. }
  destruct s as [|c s]; [constructor |].
  apply Forall_cons in Hs as [Hc Hs]. cbn [length] in Hn. cbn [code_points].
  assert (Hrest : Forall (λ cp, cp < 2097152)%N (c :: code_points s)).
  { constructor; [lia | apply IH; [lia | done]]. }
  destruct (isLeadingSurrogate c) eqn:Hle; [|done].
  destruct s as [|d s]; [constructor; [lia | constructor] |].
  destruct (isTrailingSurrogate d) eqn:Hd; [|done].
  apply Forall_cons in Hs as [_ Hs]. cbn [length] in Hn.
  constructor; [by apply pair_code_point | apply IH; [lia | done]].
Qed.

(** X4. The encoded query is percent-encoded UTF-8: it is made of
    unreserved code units, each standing for itself, and of escapes [%XX]
    with two upper-case hexadecimal digits, and read back it gives the
    UTF-8 octets of the code points of the query, in order (octets that
    tell each code point back). It holds no [/], [?], [#], [&] or [=]. *)
Theorem encoded_query_reads_back_as_utf8 (s t : jsstring) :
  Forall (λ c, c < 65536)%N s → encodeURIComponent s = Normal t →
  percent_decode t = Some (concat (utf8 <$> code_points s)) ∧
  Forall (λ cp, utf8_value (utf8 cp) = cp) (code_points s) ∧
  Forall (λ c, component_char c = true) t ∧
  Forall (λ c, c ∉ t) (lit "/?#&=").
Proof.
  intros Hs Ht. pose proof (encode_chars s t Hs Ht) as Hchars.
  split; [by apply (encode_reads_back (length s)) |].
  split.
  { eapply Forall_impl; [by apply (code_points_bound (length s)) |].
    intros cp Hcp. cbv beta in Hcp.
    destruct (utf8_reads_back cp Hcp) as (o & os & Hutf & _ & Hval).
    by rewrite Hutf. }
  split; [done |].
  assert (Hno : ∀ c, component_char c = false → c ∉ t).
  { intros c Hc Hin. rewrite Forall_forall in Hchars.
    apply Hchars in Hin. congruence. }
  repeat constructor; by apply Hno.
Qed.

Lemma encoded_query_reads_back_as_utf8_witness :
  percent_decode (lit "a%2Fb%3F%C3%A9") = Some [97; 47; 98; 63; 195; 169]%N.
Proof.
  refine (proj1 (encoded_query_reads_back_as_utf8
                   [97; 47; 98; 63; 233]%N (lit "a%2Fb%3F%C3%A9") _ _)).
  - repeat constructor.
  - reflexivity.
Defined.

(** X20. Two queries that can be encoded have the same encoding only if
    they are the same query: [encodeURIComponent] never sends two
    different queries to the same path. *)
Theorem encoded_query_determines_query (s s' t t' : jsstring) :
  Forall (λ c, c < 65536)%N s → Forall (λ c, c < 65536)%N s' →
  encodeURIComponent s = Normal t → encodeURIComponent s' = Normal t' →
  t = t' ↔ s = s'.
Proof.
  intros Hs Hs' He He'. split.
  - intros <-. by apply (encode_injective_upto (length s) s s' t).
  - intros <-. congruence.
Qed.

Lemma encoded_query_determines_query_witness :
  lit "a%20b" = lit "a%2Bb" ↔ lit "a b" = lit "a+b".
Proof.
  refine (encoded_query_determines_query (lit "a b") (lit "a+b") _ _ _ _ _ _).
  - repeat constructor.
  - repeat constructor.
  - reflexivity.
  - reflexivity.
Defined.

(** * The requests of a run *)

Section Requests.

Implicit Types (w : World) (ev : Event) (st : AppState).

Lemma requests_app effs effs' :
  requests (effs ++ effs') = requests effs ++ requests effs'.
Proof. unfold requests. apply List.filter_app. Qed.

Lemma requests_handleSearch st (e : Env) :
  requests ((exec (handleSearch st) e).2 ++ App_render_effects) =
  if search_sends st then search_request st else [].
Proof.
  unfold search_sends, search_request.
  destruct (handleSearch_cases st) as [Hb | [[Hb Hwf] | [Hb [Hp [segment Hs]]]]].
  - rewrite (exec_handleSearch_blank _ _ Hb).
    by apply not_str_trim in Hb as ->.
  - rewrite (exec_handleSearch_malformed _ _ Hb Hwf), Hwf.
    by rewrite andb_false_r.
  - destruct (exec_handleSearch_request st e segment Hb Hs Hp) as (k & -> & _).
    assert (Hwf : encodable st = true).
    { unfold encodable. rewrite Hp, andb_true_r. apply encode_defined. eauto. }
    rewrite Hs, Hwf. by apply not_str_trim_false in Hb as ->.
Qed.

(** The requests of one event, in a world whose pending handlers are the
    component's own. *)
Lemma step_requests w ev :
  Forall awaited_ok (pending w) →
  requests (emitted w ev) = next_requests (ui (env w)) ev.
Proof.
  intros Hpend.
  assert (Hquiet : ∀ f,
    step w ev = run (set f) w (pending w) → requests (emitted w ev) = []).
  { intros f Hstep. by rewrite (emitted_run _ _ _ _ Hstep). }
  destruct ev; cbn [next_requests];
    try (by apply (Hquiet _ eq_refl)).
  - destruct (showProfileEditor (ui (env w))) eqn:Hshow.
    + apply (Hquiet (setProfile_ value)). cbn [step handler]. by rewrite Hshow.
    + rewrite emitted_idle; [done |]. cbn [step handler]. by rewrite Hshow.
  - destruct (showProfileEditor (ui (env w))) eqn:Hshow.
    + erewrite emitted_run by (cbn [step handler]; by rewrite Hshow). done.
    + rewrite emitted_idle; [done |]. cbn [step handler]. by rewrite Hshow.
  - destruct (jsstring_eqb key (lit "Enter")) eqn:Hkey.
    + erewrite emitted_run by (cbn [step handler]; by rewrite Hkey).
      apply requests_handleSearch.
    + erewrite emitted_run by (cbn [step handler]; by rewrite Hkey). done.
  - destruct (loading (ui (env w))) eqn:Hl.
    + rewrite emitted_idle; [done |]. cbn [step handler]. by rewrite Hl.
    + erewrite emitted_run by (cbn [step handler]; by rewrite Hl).
      apply requests_handleSearch.
  - destruct (bool_decide (index < length (articles (ui (env w))))%nat) eqn:Hi.
    + erewrite emitted_run by (cbn [step handler]; by rewrite Hi). done.
    + rewrite emitted_idle; [done |]. cbn [step handler]. by rewrite Hi.
  - destruct (bool_decide (index < length (articles (ui (env w))))%nat) eqn:Hi.
    + erewrite emitted_run by (cbn [step handler]; by rewrite Hi). done.
    + rewrite emitted_idle; [done |]. cbn [step handler]. by rewrite Hi.
  - destruct (bool_decide (0 < length (articles (ui (env w))))%nat
              && negb (saving (ui (env w)))) eqn:Hen.
    + erewrite emitted_run by (cbn [step handler]; by rewrite Hen).
      by destruct (exec_handleSave (ui (env w)) (env w)) as (k & -> & _).
    + rewrite emitted_idle; [done |]. cbn [step handler]. by rewrite Hen.
  - destruct (pending w !! i) as [[k|k]|] eqn:Hi.
    + erewrite emitted_run by (cbn [step]; by rewrite Hi).
      apply (Forall_lookup_1 _ _ _ _ Hpend) in Hi. cbn in Hi. rewrite Hi.
      by destruct r.
    + rewrite emitted_idle; [done |]. cbn [step]. by rewrite Hi.
    + rewrite emitted_idle; [done |]. cbn [step]. by rewrite Hi.
  - destruct (pending w !! i) as [[k|k]|] eqn:Hi.
    + rewrite emitted_idle; [done |]. cbn [step]. by rewrite Hi.
    + erewrite emitted_run by (cbn [step]; by rewrite Hi).
      apply (Forall_lookup_1 _ _ _ _ Hpend) in Hi. cbn in Hi. rewrite Hi.
      by destruct r.
    + rewrite emitted_idle; [done |]. cbn [step]. by rewrite Hi.
Qed.

(** The requests of a run are those of its events, in order. *)
Lemma requests_steps_snoc storage evs ev :
  let w := steps (mount storage) evs in
  requests (log (steps (mount storage) (evs ++ [ev]))) =
  requests (log w) ++ next_requests (ui (env w)) ev.
Proof.
  intros w. rewrite steps_snoc, log_step, requests_app. fold w.
  by rewrite step_requests by apply reachable.
Qed.

Lemma next_requests_length st ev :
  (length (next_requests st ev) ≤ if may_request ev then 1 else 0)%nat.
Proof.
  assert (Hs : (length (search_request st) ≤ 1)%nat).
  { unfold search_request.
    destruct (encodeURIComponent (query st)); cbn; lia. }
  destruct ev; cbn [next_requests may_request length]; try lia.
  - destruct (jsstring_eqb key (lit "Enter")); cbn [andb length]; [|lia].
    destruct (search_sends st); cbn [length]; lia.
  - destruct (negb _ && _); cbn [length]; lia.
  - destruct (_ && _); cbn [length]; lia.
Qed.

Lemma posted_app effs effs' : posted (effs ++ effs') = posted effs ++ posted effs'.
Proof. unfold posted. apply omap_app. Qed.

Lemma posted_requests effs : posted (requests effs) = posted effs.
Proof.
  induction effs as [|eff effs IH]; [done |].
  unfold posted, requests in *. destruct eff; cbn; by rewrite ?IH.
Qed.

Lemma delivered_snoc evs ev :
  delivered (evs ++ [ev]) =
  delivered evs ++
    match ev with
    | SettleGet _ (Resolve response) => [SearchResponse.articles (data response)]
    | _ => []
    end.
Proof.
  unfold delivered. rewrite omap_app. f_equal.
  destruct ev; try done. by destruct r.
Qed.

End Requests.

Section Provenance.

Implicit Types (st : AppState) (ev : Event).

Lemma search_started_articles st : articles (search_started st) = articles st.
Proof. unfold search_started. by repeat case_match. Qed.

Lemma articles_provenance storage evs :
  let st := ui (env (steps (mount storage) evs)) in
  articles st = [] ∨ ∃ l, l ∈ delivered evs ∧ articles st `sublist_of` l.
Proof.
  cbv zeta. induction evs as [|ev evs IH] using rev_ind; [by left |].
  rewrite steps_snoc, reachable_next_ui, delivered_snoc.
  set (st := ui (env (steps (mount storage) evs))) in *.
  set (kinds := is_get <$> pending (steps (mount storage) evs)).
  assert (Hkeep : ∀ st' extra,
    articles st' = articles st →
    articles st' = [] ∨
    ∃ l, l ∈ delivered evs ++ extra ∧ articles st' `sublist_of` l).
  { intros st' extra ->. destruct IH as [? | (l & Hl & Hsub)]; [by left |].
    right. exists l. split; [|done]. apply elem_of_app. by left. }
  destruct ev; cbn [next_ui]; try (by apply Hkeep).
  - apply Hkeep. by destruct (showProfileEditor st).
  - apply Hkeep. by destruct (showProfileEditor st).
  - apply Hkeep. destruct (jsstring_eqb key (lit "Enter")); [|done].
    apply search_started_articles.
  - apply Hkeep. destruct (loading st); [done |].
    apply search_started_articles.
  - apply Hkeep. by case_bool_decide.
  - case_bool_decide; [|by apply Hkeep]. cbn.
    destruct IH as [-> | (l & Hl & Hsub)]; [by left |].
    right. exists l. split; [apply elem_of_app; by left |].
    etrans; [apply sublist_delete | done].
  - apply Hkeep. by destruct (_ && _).
  - destruct (kinds !! i) as [[|]|]; try (by apply Hkeep).
    destruct r as [response | err]; [|by apply Hkeep].
    right. exists (SearchResponse.articles (data response)).
    split; [apply elem_of_app; right; by left | done].
  - apply Hkeep. destruct (kinds !! i) as [[|]|]; try done. by destruct r.
Qed.

End Provenance.

Lemma results_provenance
    (storage : gmap jsstring jsstring) (evs : list Event) :
  let st := ui (env (steps (mount storage) evs)) in
  (articles st = [] ∧ llmReasoning st = lit "") ∨
  ∃ i response,
    SettleGet i (Resolve response) ∈ evs ∧
    articles st `sublist_of` SearchResponse.articles (data response) ∧
    llmReasoning st = SearchResponse.llm_reasoning (data response).
Proof.
  cbv zeta. induction evs as [|ev evs IH] using rev_ind; [by left |].
  rewrite steps_snoc, reachable_next_ui.
  set (st := ui (env (steps (mount storage) evs))) in *.
  set (kinds := is_get <$> pending (steps (mount storage) evs)).
  assert (Hkeep : ∀ st',
    articles st' `sublist_of` articles st → llmReasoning st' = llmReasoning st →
    (articles st' = [] ∧ llmReasoning st' = lit "") ∨
    ∃ i response,
      SettleGet i (Resolve response) ∈ evs ++ [ev] ∧
      articles st' `sublist_of` SearchResponse.articles (data response) ∧
      llmReasoning st' = SearchResponse.llm_reasoning (data response)).
  { intros st' Hsub ->. destruct IH as [[Ha ->] | (i & response & Hi & Hs & ->)].
    - left. split; [|done]. rewrite Ha in Hsub. by apply sublist_nil_r.
    - right. exists i, response. split; [apply elem_of_app; by left |].
      split; [by etrans | done]. }
  assert (Hsearch : articles (search_started st) = articles st ∧
                    llmReasoning (search_started st) = llmReasoning st).
  { unfold search_started. by repeat case_match. }
  destruct ev; cbn [next_ui]; try (by apply Hkeep).
  - apply Hkeep; by destruct (showProfileEditor st).
  - apply Hkeep; by destruct (showProfileEditor st).
  - destruct (jsstring_eqb key (lit "Enter")); [|by apply Hkeep].
    destruct Hsearch as [Ha Hr]. apply Hkeep; [by rewrite Ha | done].
  - destruct (loading st); [by apply Hkeep |].
    destruct Hsearch as [Ha Hr]. apply Hkeep; [by rewrite Ha | done].
  - apply Hkeep; by case_bool_decide.
  - case_bool_decide; [|by apply Hkeep].
    apply Hkeep; [apply sublist_delete | done].
  - apply Hkeep; by destruct (_ && _).
  - destruct (kinds !! i) as [[|]|]; try (by apply Hkeep).
    destruct r as [response | err]; [|by apply Hkeep].
    right. exists i, response. split; [apply elem_of_app; right; by left | done].
  - destruct (kinds !! i) as [[|]|]; try (by apply Hkeep).
    apply Hkeep; by destruct r.
Qed.

(** X21. The articles and the reasoning text on the page always belong
    together: in every reachable state either no search has been fulfilled
    yet (no articles, no reasoning text), or there is a fulfilled search
    among the events so far whose reasoning text is the one of the state
    and of whose articles the list of the state is a sub-sequence
    (articles dropped, order kept, nothing added or mixed in from another
    response). *)
Theorem shown_articles_are_part_of_one_response
    (storage : gmap jsstring jsstring) (evs : list Event) :
  let st := ui (env (steps (mount storage) evs)) in
  (articles st = [] ∧ llmReasoning st = lit "") ∨
  ∃ i response,
    SettleGet i (Resolve response) ∈ evs ∧
    articles st `sublist_of` SearchResponse.articles (data response) ∧
    llmReasoning st = SearchResponse.llm_reasoning (data response).
Proof. apply results_provenance. Qed.

(** X25. The log panel shows nothing before a search has been fulfilled,
    whatever is clicked; when it shows a text, that text is the reasoning
    text of a fulfilled search among the events so far, and the Log
    button is on. *)
Theorem log_panel_shows_reasoning_of_a_response
    (storage : gmap jsstring jsstring) (evs : list Event) :
  let st := ui (env (steps (mount storage) evs)) in
  (delivered evs = [] → log_panel (render st) = None) ∧
  ∀ text,
    log_panel (render st) = Some text →
    showLog st = true ∧
    ∃ i response,
      SettleGet i (Resolve response) ∈ evs ∧
      text = SearchResponse.llm_reasoning (data response).
Proof.
  cbv zeta. pose proof (results_provenance storage evs) as Hprov.
  cbv zeta in Hprov. set (st := ui (env (steps (mount storage) evs))) in *.
  assert (Hpanel : ∀ text,
    log_panel (render st) = Some text → showLog st = true ∧ text = llmReasoning st).
  { intros text. cbn [render log_panel]. unfold and_then.
    destruct (showLog st); [|done].
    destruct (not_str (llmReasoning st)); [done |]. by intros [= <-]. }
  split.
  - intros Hnone. destruct Hprov as [[_ Hr] | (i & response & Hi & _)].
    + cbn [render log_panel]. rewrite Hr. by destruct (showLog st).
    + assert (Hd : SearchResponse.articles (data response) ∈ delivered evs).
      { unfold delivered. apply list_elem_of_omap.
        by exists (SettleGet i (Resolve response)). }
      rewrite Hnone in Hd. by apply elem_of_nil in Hd.
  - intros text Htext. destruct (Hpanel _ Htext) as [Hshow ->].
    split; [done |].
    destruct Hprov as [[_ Hr] | (i & response & Hi & _ & Hr)].
    + assert (Hp : log_panel (render st) = None).
      { cbn [render log_panel]. rewrite Hr. by destruct (showLog st). }
      by rewrite Hp in Htext.
    + by exists i, response.
Qed.

(** X22. What is saved: every save request of a run goes to [/save] with a
    body that is not empty and is a sub-sequence of the article list of
    a fulfilled search that came before. *)
Theorem saved_lists_are_nonempty_parts_of_responses
    (storage : gmap jsstring jsstring) (evs : list Event) :
  let w := steps (mount storage) evs in
  (∀ url body, HttpPost url body ∈ log w → url = lit "http://localhost:8000/save") ∧
  ∀ body, body ∈ posted (log w) →
          body ≠ [] ∧ ∃ l, l ∈ delivered evs ∧ body `sublist_of` l.
Proof.
  cbv zeta. induction evs as [|ev evs [IHurl IH]] using rev_ind.
  { split.
    - by intros url body [? | ?%elem_of_nil]%elem_of_cons.
    - by intros body ?%elem_of_nil. }
  pose proof (requests_steps_snoc storage evs ev) as Hreq. cbv zeta in Hreq.
  set (w := steps (mount storage) evs) in *.
  set (w' := steps (mount storage) (evs ++ [ev])) in *.
  assert (Hnew : ∀ url body,
    HttpPost url body ∈ next_requests (ui (env w)) ev →
    url = lit "http://localhost:8000/save" ∧ body = articles (ui (env w)) ∧
    body ≠ []).
  { intros url body. destruct ev; cbn [next_requests];
      try (by intros ?%elem_of_nil).
    - unfold search_request. repeat case_match;
        try (by intros ?%elem_of_nil);
        by intros [? | ?%elem_of_nil]%elem_of_cons.
    - unfold search_request. repeat case_match;
        try (by intros ?%elem_of_nil);
        by intros [? | ?%elem_of_nil]%elem_of_cons.
    - destruct (bool_decide _ && _) eqn:Hen; [|by intros ?%elem_of_nil].
      apply andb_prop in Hen as [Hlen%bool_decide_eq_true _].
      intros [[= -> ->] | ?%elem_of_nil]%elem_of_cons; [|done].
      repeat split. intros Ha. rewrite Ha in Hlen. cbn in Hlen. lia. }
  assert (Hin : ∀ url body,
    HttpPost url body ∈ log w' →
    HttpPost url body ∈ log w ∨ HttpPost url body ∈ next_requests (ui (env w)) ev).
  { intros url body Hb.
    assert (Hr : HttpPost url body ∈ requests (log w')).
    { unfold requests. apply list_elem_of_In, List.filter_In.
      split; [by apply list_elem_of_In | done]. }
    rewrite Hreq in Hr. apply elem_of_app in Hr as [Hr | Hr]; [left | by right].
    unfold requests in Hr. apply list_elem_of_In, List.filter_In in Hr as [Hr _].
    by apply list_elem_of_In. }
  split.
  - intros url body [Hold | Hnew']%Hin; [by eapply IHurl |].
    by apply Hnew in Hnew' as [? _].
  - intros body Hb. rewrite <- posted_requests, Hreq, posted_app in Hb.
    rewrite posted_requests in Hb. rewrite delivered_snoc.
    apply elem_of_app in Hb as [Hb | Hb].
    + destruct (IH body Hb) as [Hne (l & Hl & Hsub)]. split; [done |].
      exists l. split; [apply elem_of_app; by left | done].
    + unfold posted in Hb. apply list_elem_of_omap in Hb as (eff & Heff & Hbody).
      destruct eff; try done. injection Hbody as ->.
      apply Hnew in Heff as (_ & -> & Hne). split; [done |].
      destruct (articles_provenance storage evs) as [Hnil | (l & Hl & Hsub)];
        [done |].
      exists l. split; [apply elem_of_app; by left | done].
Qed.

(** X23. The component sends nothing on its own: the first render makes no
    request, and over any run there are at most as many requests as there
    were clicks on Search, clicks on Save Articles and presses of Enter in
    the query field. A settled request, failed or not, is never followed
    by a request of the component's own making. *)
Theorem requests_come_from_search_and_save_only
    (storage : gmap jsstring jsstring) (evs : list Event) (ev : Event) :
  let w := steps (mount storage) evs in
  requests (log (mount storage)) = [] ∧
  (length (requests (log w)) ≤ length (List.filter may_request evs))%nat ∧
  (may_request ev = false → requests (emitted w ev) = []).
Proof.
  cbv zeta. split; [done |]. split.
  - induction evs as [|ev' evs IH] using rev_ind; [done |].
    rewrite requests_steps_snoc, length_app, List.filter_app, length_app.
    pose proof (next_requests_length
      (ui (env (steps (mount storage) evs))) ev') as Hn.
    cbn [List.filter]. destruct (may_request ev'); cbn [length] in *; lia.
  - intros Hev. rewrite step_requests by apply reachable.
    pose proof (next_requests_length
      (ui (env (steps (mount storage) evs))) ev) as Hn.
    rewrite Hev in Hn. destruct (next_requests _ ev); [done | cbn in Hn; lia].
Qed.

(** X24. No search request of a run is for a blank query: every GET in the
    log was made in a state of the run whose query is not blank, goes to
    [/search/] followed by the encoding of that query, and carries the
    counts and the profile of that state. *)
Theorem search_requests_are_for_nonblank_queries
    (storage : gmap jsstring jsstring) (evs : list Event) :
  let w := steps (mount storage) evs in
  ∀ url params,
    HttpGet url params ∈ log w →
    ∃ before after segment,
      let st := ui (env (steps (mount storage) before)) in
      evs = before ++ after ∧
      ¬ blank (query st) ∧
      encodeURIComponent (query st) = Normal segment ∧
      url = lit "http://localhost:8000/search/" ++ segment ∧
      params = [(lit "max_results", PNum (maxSearchResults st));
                (lit "display_results", PNum (displayResults st));
                (lit "profile", PStr (profile st))].
Proof.
  cbv zeta. induction evs as [|ev evs IH] using rev_ind.
  { by intros url params [? | ?%elem_of_nil]%elem_of_cons. }
  intros url params Hin.
  assert (Hr : HttpGet url params ∈
               requests (log (steps (mount storage) (evs ++ [ev])))).
  { unfold requests. apply list_elem_of_In, List.filter_In.
    split; [by apply list_elem_of_In | done]. }
  rewrite requests_steps_snoc in Hr. apply elem_of_app in Hr as [Hr | Hr].
  { unfold requests in Hr.
    apply list_elem_of_In, List.filter_In in Hr as [Hr _].
    apply list_elem_of_In, IH in Hr as (before & after & segment & -> & Hrest).
    exists before, (after ++ [ev]), segment. by rewrite app_assoc. }
  set (st := ui (env (steps (mount storage) evs))) in *.
  assert (Hsearch : search_sends st = true →
    HttpGet url params ∈ search_request st →
    ∃ before after segment,
      evs ++ [ev] = before ++ after ∧
      ¬ blank (query (ui (env (steps (mount storage) before)))) ∧
      encodeURIComponent (query (ui (env (steps (mount storage) before)))) =
        Normal segment ∧
      url = lit "http://localhost:8000/search/" ++ segment ∧
      params =
        [(lit "max_results",
          PNum (maxSearchResults (ui (env (steps (mount storage) before)))));
         (lit "display_results",
          PNum (displayResults (ui (env (steps (mount storage) before)))));
         (lit "profile",
          PStr (profile (ui (env (steps (mount storage) before)))))]).
  { intros (Hb & _ & segment & Hs)%search_sends_request. unfold search_request.
    rewrite Hs. intros [[= -> ->] | ?%elem_of_nil]%elem_of_cons; [|done].
    by exists evs, [ev], segment. }
  destruct ev; cbn [next_requests] in Hr; try (by apply elem_of_nil in Hr).
  - destruct (jsstring_eqb key (lit "Enter")); cbn [andb] in Hr;
      [|by apply elem_of_nil in Hr].
    destruct (search_sends st) eqn:Hs; [by apply Hsearch |].
    by apply elem_of_nil in Hr.
  - destruct (loading st); cbn [negb andb] in Hr; [by apply elem_of_nil in Hr |].
    destruct (search_sends st) eqn:Hs; [by apply Hsearch |].
    by apply elem_of_nil in Hr.
  - destruct (_ && _); [|by apply elem_of_nil in Hr].
    by apply elem_of_cons in Hr as [? | ?%elem_of_nil].
Qed.

Lemma search_requests_are_for_nonblank_queries_witness :
  let evs := [ChangeQuery (lit "a b"); ClickSearch] in
  ∃ before after,
    evs = before ++ after ∧
    ¬ blank (query (ui (env (steps (mount ∅) before)))) ∧
    encodeURIComponent (query (ui (env (steps (mount ∅) before)))) =
      Normal (lit "a%20b").
Proof.
  cbv zeta.
  destruct (search_requests_are_for_nonblank_queries ∅
              [ChangeQuery (lit "a b"); ClickSearch]
              (lit "http://localhost:8000/search/a%20b")
              [(lit "max_results", PNum (Num 50));
               (lit "display_results", PNum (Num 10));
               (lit "profile", PStr (lit ""))])
    as (before & after & segment & Hevs & Hblank & Henc & Hurl & _).
  { apply list_elem_of_In. vm_compute. tauto. }
  exists before, after. split; [exact Hevs |]. split; [exact Hblank |].
  rewrite Henc. f_equal.
  exact (eq_sym (app_inv_head (lit "http://localhost:8000/search/") _ _ Hurl)).
Defined.

(** A profile that holds a lone surrogate: the query is fine, axios cannot
    serialise the parameters, and the search ends in its [catch] block with
    nothing sent. *)
Example lone_surrogate_profile_sends_nothing :
  let w := steps (mount ∅)
             [ClickEditProfile; ChangeProfile [55357%N];
              ChangeQuery (lit "x"); ClickSearch] in
  requests (log w) = [] ∧ pending w = [] ∧
  loading (ui (env w)) = false ∧
  error (ui (env w)) = lit "Failed to fetch articles. Please try again.".
Proof. repeat split; by vm_compute. Qed.

(** The queries [.] and [..] are encoded as they are, and a URL parser
    drops them from the path. *)
Example dot_queries_leave_the_search_path :
  encodeURIComponent (lit ".") = Normal (lit ".") ∧
  request_path (lit ".") = lit "/search/" ∧
  encodeURIComponent (lit "..") = Normal (lit "..") ∧
  request_path (lit "..") = lit "/".
Proof. repeat split; by vm_compute. Qed.

Example trim_example : trim (lit "  a b  ") = lit "a b".
Proof. reflexivity. Qed.
Example parseInt_example :
  parseInt (lit " -12px") = Num (-12) /\ parseInt (lit "0x1F") = Num 31 /\
  parseInt (lit "") = NaN /\ parseInt (lit "1e3") = Num 1.
Proof. repeat split; reflexivity. Qed.
Example encode_example :
  encodeURIComponent (lit "a b/c?") = Normal (lit "a%20b%2Fc%3F") /\
  encodeURIComponent [233%N] = Normal (lit "%C3%A9") /\
  encodeURIComponent [55357%N; 56832%N] = Normal (lit "%F0%9F%98%80") /\
  encodeURIComponent [55357%N] = Abrupt URIError.
Proof. repeat split; reflexivity. Qed.
Example split_example :
  split 32%N (lit "a  b") = [lit "a"; []; lit "b"] /\ split 32%N [] = [[]].
Proof. split; reflexivity. Qed.
Example slice_example :
  slice [1; 2; 3; 4] 0 2 = [1; 2] /\ slice [1; 2; 3; 4] 0 (-1) = [1; 2; 3] /\
  slice [1; 2; 3; 4] 0 9 = [1; 2; 3; 4].
Proof. repeat split; reflexivity. Qed.
Example truncateText_example :
  truncateText (lit "one two three") 5 = lit "one two three" /\
  truncateText (lit "") 0 = lit "...".
Proof. split; reflexivity. Qed.
Example saved_profile_is_read_back :
  let w := steps (mount ∅)
    [ClickEditProfile; ChangeProfile (lit "ml"); ClickSaveProfile] in
  profile (ui (env (mount (localStorage (env w))))) = lit "ml".
Proof. by vm_compute. Qed.
Example dismiss_example :
  JS.filter (λ _ i, negb (Nat.eqb i 1)) [10; 20; 30] = [10; 30].
Proof. reflexivity. Qed.
